(** * Watchman logging and crash diagnostics (log.c)

    A shallow embedding of [log.c]: the per-thread name registry
    ([w_get_thread_name], [w_set_thread_name]), the log entry point
    ([w_log]) with its bounded line buffer, the fatal path
    ([log_stack_trace] followed by [abort]) and the fault decoder of the
    signal handler ([crash_handler]).

    C strings are lists of characters; the process state (the configured
    level, the allocator, the slot of each thread, the clock and what the
    sinks received) is threaded explicitly through a small monad whose
    outcomes distinguish a normal return from a call to [abort] and from
    behaviour C leaves undefined.

    What [watchman.h], the client sink and the C library contribute is
    gathered in the record [platform]. Installing the handler
    ([w_setup_signal_handlers]) acts on a table of signal dispositions, and
    the destructor that [register_thread_name] gives the key is run by a
    model of thread exit. The release of the array [backtrace_symbols]
    returns is not part of the model. *)

From Stdlib Require Import ZArith NArith Ascii String DecimalString DecimalPos DecimalN HexString.
From stdpp Require Import base option list gmap.

Local Open Scope Z_scope.

(** ** C strings *)

Abbreviation bytes := (list ascii).

Definition NUL : ascii := Ascii.zero.
Definition NL : ascii := "010"%char.

(** A string literal of the source. *)
Definition lit (s : string) : bytes := list_ascii_of_string s.

Definition is_nul (c : ascii) : bool := Ascii.eqb c NUL.

(** The characters a [const char *] denotes: everything before the first
    terminator. *)
Fixpoint c_str (s : bytes) : bytes :=
  match s with
  | [] => []
  | c :: s' => if is_nul c then [] else c :: c_str s'
  end.

(** [strlen]: the index of the first terminator; reading past the end of the
    array without meeting one is undefined. *)
Fixpoint strlen (s : bytes) : option nat :=
  match s with
  | [] => None
  | c :: s' => if is_nul c then Some O else S <$> strlen s'
  end.

Definition nul_free (s : bytes) : Prop := Forall (λ c, is_nul c = false) s.

(** ** Formatted output (the conversions this file uses) *)

Definition dec (n : N) : bytes :=
  lit (NilZero.string_of_uint (N.to_uint n)).

(** A signed or unsigned decimal conversion with an optional [0] flag and a
    minimum field width. *)
Definition fmt_decimal (zero : bool) (width : nat) (z : Z) : bytes :=
  let sign := if z <? 0 then lit "-" else [] in
  let digits := dec (Z.abs_N z) in
  let pad := (width - (length sign + length digits))%nat in
  if zero then sign ++ replicate pad "0"%char ++ digits
  else replicate pad " "%char ++ sign ++ digits.

Definition fmt_string (width : nat) (s : bytes) : bytes :=
  let s := c_str s in
  replicate (width - length s)%nat " "%char ++ s.

Inductive arg : Type :=
  | AInt (z : Z)        (* int *)
  | AUInt (n : Z)       (* unsigned int, uint32_t *)
  | AStr (s : bytes)    (* const char *, as the characters it points to *)
  | APtr (p : Z).       (* void * *)

Definition digit_of (c : ascii) : option nat :=
  let n := nat_of_ascii c in
  if bool_decide (48 ≤ n ≤ 57)%nat then Some (n - 48)%nat else None.

(** Scanner state: copying ordinary characters, or inside a conversion
    specification after its [%]. *)
Inductive scan : Type :=
  | Copy
  | Spec (zero : bool) (width : option nat).

Section Printf.
(** How the platform prints a pointer with [%p] is implementation
    defined. *)
Variable fmt_pointer : Z → bytes.

Definition convert (c : ascii) (zero : bool) (width : nat) (ap : list arg)
    : option (bytes * list arg) :=
  match ap with
  | [] => None
  | a :: ap' =>
    if Ascii.eqb c "d" then
      match a with AInt z => Some (fmt_decimal zero width z, ap') | _ => None end
    else if Ascii.eqb c "u" then
      match a with
      | AUInt n => Some (fmt_decimal zero width (n `mod` 2 ^ 32), ap')
      | _ => None
      end
    else if Ascii.eqb c "s" then
      match a with AStr s => Some (fmt_string width s, ap') | _ => None end
    else if Ascii.eqb c "p" then
      match a with APtr p => Some (fmt_string width (fmt_pointer p), ap') | _ => None end
    else None
  end.

(** [None]: the format is invalid or does not match its arguments, which
    C leaves undefined. *)
Fixpoint vformat_from (st : scan) (fmt : bytes) (ap : list arg) : option bytes :=
  match fmt with
  | [] => match st with Copy => Some [] | Spec _ _ => None end
  | c :: fmt' =>
    match st with
    | Copy =>
      if Ascii.eqb c "%" then vformat_from (Spec false None) fmt' ap
      else cons c <$> vformat_from Copy fmt' ap
    | Spec zero width =>
      match digit_of c, width with
      | Some O, None => vformat_from (Spec true None) fmt' ap
      | Some d, None => vformat_from (Spec zero (Some d)) fmt' ap
      | Some d, Some w => vformat_from (Spec zero (Some (10 * w + d)%nat)) fmt' ap
      | None, _ =>
        if Ascii.eqb c "%" then
          match zero, width with
          | false, None => cons c <$> vformat_from Copy fmt' ap
          | _, _ => None
          end
        else
          match convert c zero (default O width) ap with
          | Some (out, ap') => app out <$> vformat_from Copy fmt' ap'
          | None => None
          end
      end
    end
  end.

Definition vformat (fmt : bytes) (ap : list arg) : option bytes :=
  vformat_from Copy (c_str fmt) ap.

End Printf.

(** ** Time *)

Record timeval : Type := { tv_sec : Z; tv_usec : Z }.

Record tm : Type :=
  { tm_sec : Z; tm_min : Z; tm_hour : Z; tm_mday : Z; tm_mon : Z; tm_year : Z }.

(** The conversions of ["%Y-%m-%dT%H:%M:%S"]. *)
Definition timestamp (t : tm) : bytes :=
  fmt_decimal false 0 (1900 + tm_year t) ++ lit "-"
  ++ fmt_decimal true 2 (tm_mon t + 1) ++ lit "-"
  ++ fmt_decimal true 2 (tm_mday t) ++ lit "T"
  ++ fmt_decimal true 2 (tm_hour t) ++ lit ":"
  ++ fmt_decimal true 2 (tm_min t) ++ lit ":"
  ++ fmt_decimal true 2 (tm_sec t).

(** [strftime(s, max, "%Y-%m-%dT%H:%M:%S", tm)]: the result with its
    terminator has to fit [max] characters, otherwise the array is left
    indeterminate. *)
Definition strftime (max : nat) (t : tm) : option bytes :=
  if bool_decide (length (timestamp t) < max)%nat then Some (timestamp t) else None.

(** The conversion of a wider integer to [int]. *)
Definition to_int (z : Z) : Z := (z + 2 ^ 31) `mod` 2 ^ 32 - 2 ^ 31.

Definition INT_MAX : Z := 2 ^ 31 - 1.

(** ** The process state *)

(** A non-null address of the allocator; [None] stands for [NULL]. *)
Abbreviation ptr := positive.

Inductive event : Type :=
  | Stderr (line : bytes)                  (* write(STDERR_FILENO, buf, len) *)
  | ToClients (level : Z) (line : bytes).  (* w_log_to_clients(level, buf) *)

Record world : Type := World {
  log_level : Z;                   (* the global threshold *)
  heap : gmap ptr bytes;           (* live blocks of the allocator *)
  thread_name_key : gmap Z ptr;    (* the slot of each thread; absent is NULL *)
  clock : nat;                     (* readings of the clock taken so far *)
  output : list event              (* what the sinks received, oldest first *)
}.

Inductive outcome (A : Type) : Type :=
  | Returns (a : A) (w : world)    (* control is back in the caller *)
  | Aborts (w : world)             (* abort() was called *)
  | Undefined                      (* behaviour C leaves undefined *)
  | OutOfFuel.                     (* the recursion bound of the model ran out *)
Arguments Returns {A} a w.
Arguments Aborts {A} w.
Arguments Undefined {A}.
Arguments OutOfFuel {A}.

Definition M (A : Type) : Type := world → outcome A.

#[global] Instance M_ret : MRet M := λ A a w, Returns a w.
#[global] Instance M_bind : MBind M := λ A B f m w,
  match m w with
  | Returns a w' => f a w'
  | Aborts w' => Aborts w'
  | Undefined => Undefined
  | OutOfFuel => OutOfFuel
  end.

Definition abort {A} : M A := λ w, Aborts w.
Definition undefined {A} : M A := λ _, Undefined.
Definition out_of_fuel {A} : M A := λ _, OutOfFuel.

(** An operation that is defined only when its pure model is. *)
Definition defined {A} (o : option A) : M A :=
  match o with Some a => mret a | None => undefined end.

Definition emit (e : event) : M unit := λ w,
  Returns tt (World (log_level w) (heap w) (thread_name_key w) (clock w) (output w ++ [e])).

Fixpoint for_each {A} (l : list A) (body : A → M unit) : M unit :=
  match l with
  | [] => mret tt
  | x :: l' => body x ;; for_each l' body
  end.

(** ** The allocator and the thread-specific slot *)

Definition pthread_getspecific (self : Z) : M (option ptr) := λ w,
  Returns (thread_name_key w !! self) w.

Definition pthread_setspecific (self : Z) (p : option ptr) : M unit := λ w,
  let slots := match p with
               | Some a => <[self := a]> (thread_name_key w)
               | None => delete self (thread_name_key w)
               end in
  Returns tt (World (log_level w) (heap w) slots (clock w) (output w)).

(** [free(NULL)] does nothing; freeing a block that is not live is undefined. *)
Definition free (p : option ptr) : M unit := λ w,
  match p with
  | None => Returns tt w
  | Some a =>
    match heap w !! a with
    | Some _ => Returns tt (World (log_level w) (delete a (heap w)) (thread_name_key w)
                              (clock w) (output w))
    | None => Undefined
    end
  end.

(** A fresh block holding [s]. Running out of memory is not modelled. *)
Definition malloc_str (s : bytes) : M ptr := λ w,
  let a := fresh (dom (heap w)) in
  Returns a (World (log_level w) (<[a := s]> (heap w)) (thread_name_key w)
               (clock w) (output w)).

(** Reading the string a pointer refers to; the block has to be live. *)
Definition deref (p : option ptr) : M bytes := λ w,
  match p with
  | Some a => match heap w !! a with Some s => Returns s w | None => Undefined end
  | None => Undefined
  end.

(** ** The bounded buffer *)

(** Checked array accesses: outside the array they are undefined. *)
Definition load (buf : bytes) (i : Z) : option ascii :=
  if bool_decide (0 ≤ i) then buf !! Z.to_nat i else None.

Definition store (buf : bytes) (i : Z) (c : ascii) : option bytes :=
  if bool_decide (0 ≤ i < Z.of_nat (length buf)) then Some (<[Z.to_nat i := c]> buf)
  else None.

Definition store_at (buf : bytes) (off : nat) (data : bytes) : bytes :=
  take off buf ++ data ++ drop (off + length data) buf.

(** What the [printf] family returns for output [s]: its length, or -1 when
    that does not fit an [int]. *)
Definition printed (s : bytes) : Z :=
  if bool_decide (Z.of_nat (length s) ≤ INT_MAX) then Z.of_nat (length s) else -1.

(** [snprintf(buf + off, size, ...)] with rendered output [s]: at most
    [size - 1] characters and a terminator are stored, and the length of the
    whole output is returned. The destination has to lie inside the array. *)
Definition snprintf (buf : bytes) (off : Z) (size : Z) (s : bytes) : option (bytes * Z) :=
  if bool_decide (0 ≤ off ∧ 0 ≤ size ∧ off + size ≤ Z.of_nat (length buf)) then
    if bool_decide (size = 0) then Some (buf, printed s)
    else Some (store_at buf (Z.to_nat off) (take (Z.to_nat size - 1) s ++ [NUL]), printed s)
  else None.

(** [size_t] arithmetic wraps around. *)
Definition to_size_t (z : Z) : Z := z `mod` 2 ^ 64.

(** ** What the file takes from its environment *)

Record platform : Type := Platform {
  (* watchman.h *)
  W_LOG_ERR : Z;
  W_LOG_FATAL : Z;
  (* the client sink's predicate; the clients do not change during a call *)
  w_should_log_to_clients : Z → bool;
  (* the C library and the operating system *)
  gettimeofday : nat → timeval;     (* the n-th reading of the clock *)
  localtime_r : Z → tm;
  fmt_pointer : Z → bytes;
  strsignal : Z → bytes;
  HAVE_BACKTRACE : bool;            (* backtrace and backtrace_symbols exist *)
  call_stack : list bytes;          (* the symbolised frames, innermost first *)
  uninitialised : nat → ascii       (* what an automatic array holds at first *)
}.

Definition sizeof_buf : Z := 4096.

Section Log.
Context (P : platform).

(** The calling thread, as [pthread_self()] converted to [uintptr_t]. *)
Context (self : Z).

(** [vasprintf(&name, fmt, ap)]: the rendered string in a fresh block. *)
Definition vasprintf (fmt : bytes) (ap : list arg) : M (option ptr) :=
  s ← defined (vformat (fmt_pointer P) fmt ap);
  a ← malloc_str s;
  mret (Some a).

(** Lines 111-120. *)
Definition w_set_thread_name (fmt : bytes) (ap : list arg) : M (option ptr) :=
  old ← pthread_getspecific self;
  free old;;
  name ← vasprintf fmt ap;
  pthread_setspecific self name;;
  mret name.

(** Lines 103-109; [PRIu32] is ["u"]. *)
Definition w_get_thread_name : M (option ptr) :=
  name ← pthread_getspecific self;
  match name with
  | Some a => mret (Some a)
  | None => w_set_thread_name (lit "%u") [AUInt (self `mod` 2 ^ 32)]
  end.

(** [gettimeofday(&tv, NULL)]. *)
Definition read_clock : M timeval := λ w,
  Returns (gettimeofday P (clock w))
    (World (log_level w) (heap w) (thread_name_key w) (S (clock w)) (output w)).

(** [char buf[4096]], not initialised. *)
Definition buf0 : bytes := uninitialised P <$> seq 0 (Z.to_nat sizeof_buf).

(** Lines 153-162: the prefix, then the message behind it. *)
Definition render (prefix : bytes) (msg : bytes) : option bytes :=
  '(buf, len) ← snprintf buf0 0 sizeof_buf prefix;
  '(buf, len2) ← snprintf buf len (to_size_t (sizeof_buf - len)) msg;
  if bool_decide (len2 = -1) then store buf (sizeof_buf - 1) NUL else Some buf.

(** Lines 164-174: the line and its length, closed by a newline. *)
Definition terminate (buf : bytes) : option (bytes * Z) :=
  n ← strlen buf;
  let len := to_int (Z.of_nat n) in
  last ← load buf (len - 1);
  if negb (Ascii.eqb last NL) then
    if bool_decide (len < to_int sizeof_buf - 1) then
      buf ← store buf len NL;
      buf ← store buf (len + 1) NUL;
      Some (buf, len + 1)
    else
      buf ← store buf (len - 1) NL;
      Some (buf, len)
  else Some (buf, len).

(** Lines 145-154: what precedes the message, for a clock reading and a
    thread name. *)
Definition log_prefix (tv : timeval) (name : bytes) : option bytes :=
  timebuf ← strftime 64 (localtime_r P (tv_sec tv));
  vformat (fmt_pointer P) (lit "%s,%03d: [%s] ")
    [AStr timebuf; AInt (to_int (tv_usec tv) `quot` 1000); AStr name].

(** Lines 145-174: the buffer and the length of the line in it. *)
Definition format_line (fmt : bytes) (ap : list arg) : M (bytes * Z) :=
  tv ← read_clock;
  name ← w_get_thread_name;
  name ← deref name;
  prefix ← defined (log_prefix tv name);
  msg ← defined (vformat (fmt_pointer P) fmt ap);
  buf ← defined (render prefix msg);
  defined (terminate buf).

(** Lines 6-24, over the entry point it calls back. [backtrace] captures at
    most the 24 innermost frames. *)
Definition log_stack_trace_with (w_log : Z → bytes → list arg → M unit) : M unit :=
  if HAVE_BACKTRACE P then
    let strings := take 24 (call_stack P) in
    w_log (W_LOG_ERR P) (lit "Fatal error detected at:" ++ [NL]) [];;
    for_each strings (λ s, w_log (W_LOG_ERR P) (lit "%s" ++ [NL]) [AStr s])
  else mret tt.

(** Lines 122-188. [w_log] and [log_stack_trace] call each other; [fuel]
    bounds the depth of that recursion. *)
Fixpoint w_log (fuel : nat) (level : Z) (fmt : bytes) (ap : list arg) : M unit :=
  match fuel with
  | O => out_of_fuel
  | S fuel =>
    λ w0,
    let should_log_to_stderr := bool_decide (level ≤ log_level w0) in
    let should_log_to_clients := w_should_log_to_clients P level in
    if negb (should_log_to_stderr || should_log_to_clients) then Returns tt w0
    else
      let '(level, fatal) :=
        if bool_decide (level = W_LOG_FATAL P) then (W_LOG_ERR P, true)
        else (level, false) in
      ('(buf, len) ← format_line fmt ap;
       (if should_log_to_stderr then emit (Stderr (take (Z.to_nat len) buf))
        else mret tt);;
       (if should_log_to_clients then emit (ToClients level (c_str buf))
        else mret tt);;
       if fatal then log_stack_trace_with (w_log fuel);; abort
       else mret tt) w0
  end.

Definition log_stack_trace (fuel : nat) : M unit :=
  log_stack_trace_with (w_log fuel).

End Log.

(** ** The fault handler *)

(** The signal numbers and fault codes of [<signal.h>]. *)
Record signals : Type := Signals {
  SIGILL : Z; SIGFPE : Z; SIGSEGV : Z;
  SIGBUS : option Z;                (* not every platform defines it *)
  ILL_ILLOPC : Z; ILL_ILLOPN : Z; ILL_ILLADR : Z; ILL_ILLTRP : Z;
  ILL_PRVOPC : Z; ILL_PRVREG : Z; ILL_COPROC : Z; ILL_BADSTK : Z;
  FPE_INTDIV : Z; FPE_INTOVF : Z; FPE_FLTDIV : Z; FPE_FLTOVF : Z;
  FPE_FLTUND : Z; FPE_FLTRES : Z; FPE_FLTINV : Z; FPE_FLTSUB : Z;
  SEGV_MAPERR : Z; SEGV_ACCERR : Z;
  BUS_ADRALN : Z; BUS_ADRERR : Z
}.

Record siginfo_t : Type := { si_signo : Z; si_code : Z; si_value : Z }.

(** A [switch] whose cases all end in [break]: the first label equal to the
    scrutinee selects the result, and without one nothing happens. *)
Fixpoint switch {A} (x : Z) (cases : list (Z * A)) (otherwise : A) : A :=
  match cases with
  | [] => otherwise
  | (label, a) :: cases' => if bool_decide (x = label) then a else switch x cases' otherwise
  end.

Section Crash.
Context (P : platform) (sg : signals) (self : Z).

Definition ill_reasons : list (Z * bytes) :=
  [ (ILL_ILLOPC sg, lit "illegal opcode");
    (ILL_ILLOPN sg, lit "illegal operand");
    (ILL_ILLADR sg, lit "illegal addressing mode");
    (ILL_ILLTRP sg, lit "illegal trap");
    (ILL_PRVOPC sg, lit "privileged opcode");
    (ILL_PRVREG sg, lit "privileged register");
    (ILL_COPROC sg, lit "co-processor error");
    (ILL_BADSTK sg, lit "internal stack error") ].

Definition fpe_reasons : list (Z * bytes) :=
  [ (FPE_INTDIV sg, lit "integer divide by zero");
    (FPE_INTOVF sg, lit "integer overflow");
    (FPE_FLTDIV sg, lit "floating point divide by zero");
    (FPE_FLTOVF sg, lit "floating point overflow");
    (FPE_FLTUND sg, lit "floating point underflow");
    (FPE_FLTRES sg, lit "floating point inexact result");
    (FPE_FLTINV sg, lit "invalid floating point operation");
    (FPE_FLTSUB sg, lit "subscript out of range") ].

Definition segv_reasons : list (Z * bytes) :=
  [ (SEGV_MAPERR sg, lit "address not mapped to object");
    (SEGV_ACCERR sg, lit "invalid permissions for mapped object") ].

Definition bus_reasons : list (Z * bytes) :=
  [ (BUS_ADRALN sg, lit "invalid address alignment");
    (BUS_ADRERR sg, lit "non-existent physical address") ].

(** The cases of the outer [switch], each with those of its inner one. *)
Definition fault_table : list (Z * list (Z * bytes)) :=
  [ (SIGILL sg, ill_reasons); (SIGFPE sg, fpe_reasons); (SIGSEGV sg, segv_reasons) ]
  ++ match SIGBUS sg with
     | Some sigbus => [ (sigbus, bus_reasons) ]
     | None => []
     end.

(** Lines 31-75: the reason the handler prints. *)
Definition decode (si : option siginfo_t) : bytes :=
  let reason := lit "" in
  match si with
  | Some si =>
    switch (si_signo si)
      (prod_map id (λ codes, switch (si_code si) codes reason) <$> fault_table)
      reason
  | None => reason
  end.

Definition crash_message : bytes :=
  lit "Terminating due to signal %d %s. %s (%p)" ++ [NL].

(** Lines 30-78. *)
Definition crash_handler (fuel : nat) (signo : Z) (si : option siginfo_t) : M unit :=
  let reason := decode si in
  w_log P self fuel (W_LOG_FATAL P) crash_message
    [ AInt signo; AStr (strsignal P signo); AStr reason;
      APtr (match si with Some si => si_value si | None => 0 end) ].

End Crash.

(** ** A concrete environment *)

(** The values of Linux on x86-64. *)
Definition linux_signals : signals :=
  Signals 4 8 11 (Some 7) 1 2 3 4 5 6 7 8 1 2 3 4 5 6 7 8 1 2 1 2.

Definition sample_tm : tm :=
  {| tm_sec := 7; tm_min := 6; tm_hour := 5; tm_mday := 4; tm_mon := 2; tm_year := 116 |}.

(** A platform with the given severities, client predicate and call stack;
    its clock advances by one millisecond per reading. *)
Definition sample_platform (err fatal : Z) (clients : Z → bool) (frames : list bytes)
    : platform :=
  {| W_LOG_ERR := err; W_LOG_FATAL := fatal;
     w_should_log_to_clients := clients;
     gettimeofday := λ n, {| tv_sec := 1457067967; tv_usec := 1000 * Z.of_nat n |};
     localtime_r := λ _, sample_tm;
     fmt_pointer := λ p, if bool_decide (p = 0) then lit "(nil)" else lit (HexString.of_Z p);
     strsignal := λ n, if bool_decide (n = 11) then lit "Segmentation fault"
                       else lit "Unknown signal";
     HAVE_BACKTRACE := true;
     call_stack := frames;
     uninitialised := λ _, "#"%char |}.

(** Error is 1 and fatal is -1; no client listens and nothing is on the
    call stack. *)
Definition quiet_platform : platform := sample_platform 1 (-1) (λ _, false) [].

Definition initial_world (level : Z) : world :=
  World level ∅ ∅ 0 [].

(** ** The line, character by character *)

(** The buffer holds at most this many characters before its terminator. *)
Definition capacity : nat := 4095.

(** What lines 164-174 make of the rendered characters: nothing when they
    end in a newline; otherwise a newline is added when there is room, and
    replaces the last character when there is none. *)
Definition close_line (s : bytes) : bytes :=
  match last s with
  | Some c =>
    if Ascii.eqb c NL then s
    else if bool_decide (length s < capacity)%nat then s ++ [NL]
    else take (length s - 1) s ++ [NL]
  | None => s
  end.

(** The line the sinks receive for a prefix and a rendered message. *)
Definition line_of (prefix msg : bytes) : bytes :=
  close_line (take capacity (prefix ++ msg)).

(** ** The state a call leaves behind *)

(** The name a thread gets when it never set one: its identifier, cut to 32
    bits, in decimal. *)
Definition default_name (self : Z) : bytes := dec (Z.to_N (self `mod` 2 ^ 32)).

(** The name [w_get_thread_name] finds or assigns; [None] when the slot
    points to a block that is no longer live. *)
Definition thread_name (self : Z) (w : world) : option bytes :=
  match thread_name_key w !! self with
  | Some a => heap w !! a
  | None => Some (default_name self)
  end.

(** The state once the calling thread has a name. *)
Definition named (self : Z) (w : world) : world :=
  match thread_name_key w !! self with
  | Some _ => w
  | None =>
    let a := fresh (dom (heap w)) in
    World (log_level w) (<[a := default_name self]> (heap w))
      (<[self := a]> (thread_name_key w)) (clock w) (output w)
  end.

(** The state after [k] more readings of the clock. *)
Definition advance (k : nat) (w : world) : world :=
  World (log_level w) (heap w) (thread_name_key w) (k + clock w) (output w).

Definition tick (w : world) : world := advance 1 w.

Definition record (es : list event) (w : world) : world :=
  World (log_level w) (heap w) (thread_name_key w) (clock w) (output w ++ es).

(** What the sinks whose gate passed receive for one line. *)
Definition sinks (to_stderr to_clients : bool) (level : Z) (line : bytes) : list event :=
  (if to_stderr then [Stderr line] else []) ++
  (if to_clients then [ToClients level line] else []).

(** The prefix fits the array, so that the message is rendered inside it. *)
Definition prefix_fits (P : platform) (n : nat) (name : bytes) : Prop :=
  ∃ prefix, log_prefix P (gettimeofday P n) name = Some prefix
            ∧ (length prefix ≤ 4096)%nat.

(** The line of the call that takes the [n]-th reading of the clock. *)
Definition line_at (P : platform) (n : nat) (name msg : bytes) : bytes :=
  line_of (default [] (log_prefix P (gettimeofday P n) name)) msg.

(** The lines of the frames, the first of them at the [n]-th reading. *)
Fixpoint frame_lines (P : platform) (n : nat) (name : bytes) (frames : list bytes)
    : list bytes :=
  match frames with
  | [] => []
  | f :: frames' => line_at P n name (c_str f ++ [NL]) :: frame_lines P (S n) name frames'
  end.

Definition header : bytes := lit "Fatal error detected at:" ++ [NL].

(** The number of newlines a line ends in. *)
Fixpoint leading (c : ascii) (s : bytes) : nat :=
  match s with
  | x :: s' => if Ascii.eqb x c then S (leading c s') else O
  | [] => O
  end.

Definition trailing_newlines (s : bytes) : nat := leading NL (reverse s).

(** A message without its final newline, when it has one. *)
Definition chomp (s : bytes) : bytes :=
  match last s with
  | Some c => if Ascii.eqb c NL then take (length s - 1) s else s
  | None => s
  end.

(** A fault whose sub-code is not among those listed for its signal. *)
Definition unrecognised (sg : signals) (si : siginfo_t) : Prop :=
  ∀ codes, (si_signo si, codes) ∈ fault_table sg → si_code si ∉ codes.*1.

(** The value the handler prints behind the reason. *)
Definition fault_value (si : option siginfo_t) : Z :=
  match si with Some si => si_value si | None => 0 end.

(** A buffer that holds [body] and its terminator. *)
Definition holds (buf body : bytes) : Prop :=
  ∃ rest, buf = body ++ NUL :: rest ∧ length buf = 4096%nat.

(** Lines 132-133: the two gates, of standard error and of the client
    sink, for a severity. *)
Definition gates (P : platform) (level : Z) (w : world) : bool * bool :=
  (bool_decide (level ≤ log_level w), w_should_log_to_clients P level).

(** Line 135: some sink listens. *)
Definition heard (P : platform) (level : Z) (w : world) : bool :=
  (gates P level w).1 || (gates P level w).2.

(** What a call of severity [level] delivers for a line: each sink whose
    gate passes for [level] receives it, the client sink together with the
    severity [as_level]. *)
Definition delivered (P : platform) (level as_level : Z) (w : world) (line : bytes)
    : list event :=
  sinks (gates P level w).1 (gates P level w).2 as_level line.

(** The heap once the block in a slot has been released. *)
Definition released (self : Z) (w : world) : gmap ptr bytes :=
  match thread_name_key w !! self with
  | Some old => delete old (heap w)
  | None => heap w
  end.

(** ** What a call of the entry point may change *)

Definition event_line (e : event) : bytes :=
  match e with
  | Stderr line => line
  | ToClients _ line => line
  end.

(** A line as a sink expects it: no terminator inside, a newline at its end
    and no longer than the buffer allows. *)
Definition proper_line (line : bytes) : Prop :=
  nul_free line ∧ last line = Some NL ∧ (length line ≤ capacity)%nat.

(** An event the entry point may emit: a proper line, handed to the client
    sink with a severity other than the fatal one (unless the two constants
    coincide). *)
Definition proper_event (P : platform) (e : event) : Prop :=
  proper_line (event_line e)
  ∧ match e with
    | ToClients level _ => level = W_LOG_FATAL P → W_LOG_ERR P = W_LOG_FATAL P
    | Stderr _ => True
    end.

(** The states logging on thread [self] leads to from [w]: the clock was
    read some number of times, proper events were appended, at most two for
    each reading, and the calling thread may have been given its default
    name. *)
Definition logged (P : platform) (self : Z) (w w' : world) : Prop :=
  ∃ k es, Forall (proper_event P) es
          ∧ (length es ≤ 2 * k)%nat
          ∧ (w' = record es (advance k w) ∨ w' = record es (advance k (named self w))).

(** A computation that, when it returns or aborts, has only logged, and
    whose result satisfies [post]. *)
Definition logs {A} (P : platform) (self : Z) (m : M A) (post : A → Prop) : Prop :=
  ∀ w, match m w with
       | Returns a w' => logged P self w w' ∧ post a
       | Aborts w' => logged P self w w'
       | Undefined | OutOfFuel => True
       end.

(** The registry of thread names is consistent: every slot refers to a live
    block, no two threads share a block, and every live block is the name of
    some thread. *)
Record registry_ok (w : world) : Prop := Registry_ok {
  slots_live : ∀ t a, thread_name_key w !! t = Some a → is_Some (heap w !! a);
  slots_apart : ∀ t1 t2 a,
    thread_name_key w !! t1 = Some a → thread_name_key w !! t2 = Some a → t1 = t2;
  blocks_owned : ∀ a, is_Some (heap w !! a) → ∃ t, thread_name_key w !! t = Some a
}.

(** ** Thread exit *)

(** A key of thread-specific data, with the destructor it was created
    with. *)
Record pthread_key_t : Type := { destructor : option ptr → M unit }.

Definition pthread_key_create (destructor : option ptr → M unit) : pthread_key_t :=
  {| destructor := destructor |}.

(** Lines 98-101: the constructor creates the key of the thread names, with
    [free] as its destructor. *)
Definition register_thread_name : pthread_key_t := pthread_key_create free.

(** What the thread library does with a key when thread [self] exits: a
    slot that is not [NULL] is cleared, and its former value handed to the
    destructor of the key. *)
Definition thread_exit (key : pthread_key_t) (self : Z) : M unit :=
  value ← pthread_getspecific self;
  match value with
  | Some _ => pthread_setspecific self None;; destructor key value
  | None => mret tt
  end.

(** ** Installing the handler *)

(** What a signal is bound to: the default action, or [crash_handler]. *)
Inductive handler : Type :=
  | SIG_DFL
  | Crash_handler.

Record sigaction_t : Type := Sigaction {
  sa_sigaction : handler;
  sa_mask : list Z;
  sa_flags : Z
}.

(** [sigaction(sig, &sa, NULL)] on the dispositions of the process; a signal
    without an entry has its default action. *)
Definition sigaction (sig : Z) (sa : sigaction_t) (table : gmap Z sigaction_t)
    : gmap Z sigaction_t :=
  <[sig := sa]> table.

Section Setup.
Context (sg : signals) (SA_SIGINFO : Z).

(** Lines 81-96, as built for POSIX systems. *)
Definition w_setup_signal_handlers (table : gmap Z sigaction_t) : gmap Z sigaction_t :=
  let sa := Sigaction SIG_DFL [] 0 in                    (* memset(&sa, 0, sizeof(sa)) *)
  let sa := Sigaction Crash_handler (sa_mask sa) (sa_flags sa) in
  let sa := Sigaction (sa_sigaction sa) (sa_mask sa) SA_SIGINFO in
  let table := sigaction (SIGSEGV sg) sa table in
  let table := match SIGBUS sg with
               | Some sigbus => sigaction sigbus sa table
               | None => table
               end in
  let table := sigaction (SIGFPE sg) sa table in
  sigaction (SIGILL sg) sa table.

End Setup.

(** * Properties *)

(** ** Formatted output, on examples *)

Example dec_7 : dec 7 = lit "7".
Proof. reflexivity. Qed.

Example vformat_worker :
  vformat (λ _, []) (lit "worker-%d") [AInt 7] = Some (lit "worker-7").
Proof. reflexivity. Qed.

Example vformat_ms :
  vformat (λ _, []) (lit "%s,%03d: [%s] ") [AStr (lit "T"); AInt 5; AStr (lit "main")]
  = Some (lit "T,005: [main] ").
Proof. reflexivity. Qed.

Example vformat_padding :
  vformat (λ _, []) (lit "%3d|%03d|%5s|%u%%") [AInt (-7); AInt (-7); AStr (lit "ab"); AUInt (-1)]
  = Some (lit " -7|-07|   ab|4294967295%").
Proof. reflexivity. Qed.

(** ** Strings and their terminator *)

Lemma nul_free_app (s t : bytes) : nul_free (s ++ t) ↔ nul_free s ∧ nul_free t.
Proof. apply Forall_app. Qed.

Lemma nul_free_replicate (n : nat) (c : ascii) :
  is_nul c = false → nul_free (replicate n c).
Proof. intros Hc. induction n; simpl; by constructor. Qed.

Lemma nul_free_take (n : nat) (s : bytes) : nul_free s → nul_free (take n s).
Proof. apply Forall_take. Qed.

Lemma nul_free_c_str (s : bytes) : nul_free (c_str s).
Proof.
  induction s as [|c s IH]; simpl; [constructor|].
  destruct (is_nul c) eqn:E; by constructor.
Qed.

Lemma c_str_nul_free (s : bytes) : nul_free s → c_str s = s.
Proof.
  induction 1 as [|c s Hc _ IH]; simpl; [done|]. by rewrite Hc, IH.
Qed.

Lemma c_str_terminated (s rest : bytes) : nul_free s → c_str (s ++ NUL :: rest) = s.
Proof.
  induction 1 as [|c s Hc _ IH]; simpl; [done|]. by rewrite Hc, IH.
Qed.

Lemma strlen_terminated (s rest : bytes) :
  nul_free s → strlen (s ++ NUL :: rest) = Some (length s).
Proof.
  induction 1 as [|c s Hc _ IH]; simpl; [done|]. by rewrite Hc, IH.
Qed.

(** ** Formatted output never contains a terminator *)

Lemma nul_free_string_of_uint (d : Decimal.uint) :
  nul_free (lit (NilEmpty.string_of_uint d)).
Proof. induction d; simpl; try constructor; done. Qed.

Lemma nul_free_dec (n : N) : nul_free (dec n).
Proof.
  unfold dec, NilZero.string_of_uint.
  destruct (N.to_uint n); try apply nul_free_string_of_uint.
  by repeat constructor.
Qed.

Lemma nul_free_fmt_decimal (zero : bool) (width : nat) (z : Z) :
  nul_free (fmt_decimal zero width z).
Proof.
  unfold fmt_decimal.
  assert (nul_free (if z <? 0 then lit "-" else [])) by (destruct (z <? 0); by repeat constructor).
  destruct zero; rewrite !nul_free_app; repeat split;
    auto using nul_free_dec, nul_free_replicate.
Qed.

Lemma nul_free_fmt_string (width : nat) (s : bytes) : nul_free (fmt_string width s).
Proof.
  unfold fmt_string. rewrite nul_free_app. split.
  - by apply nul_free_replicate.
  - apply nul_free_c_str.
Qed.

Lemma nul_free_convert fp c zero width ap out ap' :
  convert fp c zero width ap = Some (out, ap') → nul_free out.
Proof.
  unfold convert. intros H.
  destruct ap as [|a ap0]; [done|].
  repeat case_match; simplify_eq;
    auto using nul_free_fmt_decimal, nul_free_fmt_string.
Qed.

Lemma nul_free_vformat_from fp fmt : ∀ st ap s,
  nul_free fmt → vformat_from fp st fmt ap = Some s → nul_free s.
Proof.
  induction fmt as [|c fmt IH]; intros st ap s Hfmt H; simpl in H.
  - destruct st; simplify_eq. constructor.
  - apply Forall_cons in Hfmt as [Hc Hfmt].
    destruct st as [|zero width].
    + destruct (Ascii.eqb c "%"); [by eapply IH|].
      destruct (vformat_from fp Copy fmt ap) eqn:E; simplify_eq/=.
      constructor; [done|by eapply IH].
    + destruct (digit_of c) as [d|].
      * destruct d, width; by eapply IH.
      * destruct (Ascii.eqb c "%").
        { destruct zero, width; try done.
          destruct (vformat_from fp Copy fmt ap) eqn:E; simplify_eq/=.
          constructor; [done|by eapply IH]. }
        destruct (convert fp c zero (default 0%nat width) ap) as [[out ap']|] eqn:Ec; [|done].
        destruct (vformat_from fp Copy fmt ap') eqn:E; simplify_eq/=.
        apply nul_free_app. split; [by eapply nul_free_convert|by eapply IH].
Qed.

Lemma nul_free_vformat fp fmt ap s : vformat fp fmt ap = Some s → nul_free s.
Proof. apply nul_free_vformat_from, nul_free_c_str. Qed.

(** ** The buffer *)

Ltac sizes := unfold capacity, sizeof_buf, INT_MAX in *; simpl length in *; lia.

Lemma length_store_at (buf : bytes) (off : nat) (data : bytes) :
  (off + length data ≤ length buf)%nat → length (store_at buf off data) = length buf.
Proof.
  intros H. unfold store_at. rewrite !length_app, length_take, length_drop. lia.
Qed.

Lemma length_buf0 P : length (buf0 P) = 4096%nat.
Proof. unfold buf0. by rewrite length_fmap, length_seq. Qed.

Lemma to_size_t_small (z : Z) : 0 ≤ z ≤ 4096 → to_size_t z = z.
Proof. intros H. unfold to_size_t. apply Z.mod_small. lia. Qed.

Lemma to_int_small (z : Z) : 0 ≤ z ≤ 4096 → to_int z = z.
Proof.
  intros H. unfold to_int.
  change (2 ^ 31) with 2147483648. change (2 ^ 32) with 4294967296.
  rewrite Z.mod_small; lia.
Qed.

Lemma holds_c_str buf body : nul_free body → holds buf body → c_str buf = body.
Proof. intros Hb (rest & -> & _). by apply c_str_terminated. Qed.

Lemma holds_take buf body : holds buf body → take (length body) buf = body.
Proof. intros (rest & -> & _). by rewrite take_app_length. Qed.

Lemma holds_terminator buf body : holds buf body → buf !! length body = Some NUL.
Proof. intros (rest & -> & _). by apply list_lookup_middle. Qed.

Lemma holds_length buf body : holds buf body → (length body ≤ capacity)%nat.
Proof.
  intros (rest & -> & Hlen). rewrite length_app in Hlen. simpl in Hlen.
  unfold capacity. lia.
Qed.

Lemma store_terminator_full buf body :
  holds buf body → length body = capacity → store buf (sizeof_buf - 1) NUL = Some buf.
Proof.
  intros (rest & -> & Hlen) Hb. unfold store, sizeof_buf.
  rewrite bool_decide_eq_true_2 by lia. f_equal.
  apply list_insert_id. apply list_lookup_middle. unfold capacity in Hb. lia.
Qed.

Lemma snprintf_stores (buf : bytes) (off size : Z) (s : bytes) :
  0 ≤ off → 0 < size → off + size ≤ Z.of_nat (length buf) →
  snprintf buf off size s
  = Some (store_at buf (Z.to_nat off) (take (Z.to_nat size - 1) s ++ [NUL]), printed s).
Proof.
  intros. unfold snprintf.
  rewrite bool_decide_eq_true_2 by lia. by rewrite bool_decide_eq_false_2 by lia.
Qed.

Lemma snprintf_no_room (buf : bytes) (off : Z) (s : bytes) :
  0 ≤ off ≤ Z.of_nat (length buf) → snprintf buf off 0 s = Some (buf, printed s).
Proof. intros. unfold snprintf. by rewrite bool_decide_eq_true_2 by lia. Qed.

Lemma printed_small (s : bytes) : (length s ≤ 4096)%nat → printed s = Z.of_nat (length s).
Proof. intros. unfold printed, INT_MAX. by rewrite bool_decide_eq_true_2 by lia. Qed.

Lemma printed_failed (s : bytes) : printed s = -1 → (4096 < length s)%nat.
Proof. unfold printed, INT_MAX. case_bool_decide; lia. Qed.

Lemma render_holds P (prefix msg : bytes) :
  (length prefix ≤ 4096)%nat →
  ∃ buf, render P prefix msg = Some buf ∧ holds buf (take capacity (prefix ++ msg)).
Proof.
  intros Hp. unfold render.
  generalize (length_buf0 P). generalize (buf0 P). intros b0 Hb0.
  rewrite snprintf_stores by (rewrite ?Hb0; sizes).
  rewrite printed_small by done.
  cbn [mbind option_bind].
  change (Z.to_nat sizeof_buf - 1)%nat with capacity.
  change (Z.to_nat 0) with 0%nat.
  set (buf1 := store_at b0 0 (take capacity prefix ++ [NUL])).
  assert (Hbuf1 : buf1 = take capacity prefix ++ NUL :: drop (S (length (take capacity prefix))) b0).
  { unfold buf1, store_at. rewrite take_0, length_app, <- app_assoc.
    cbn [app length]. do 3 f_equal. lia. }
  assert (Hlen1 : length buf1 = 4096%nat).
  { unfold buf1. rewrite length_store_at; [done|].
    rewrite Hb0, length_app, length_take. sizes. }
  destruct (Nat.le_gt_cases (length prefix) capacity) as [Hroom|Hfull].
  2:{ (* the prefix alone fills the array: the message has no room at all *)
    replace (sizeof_buf - Z.of_nat (length prefix)) with 0 by sizes.
    change (to_size_t 0) with 0.
    rewrite snprintf_no_room by (rewrite Hlen1; lia).
    cbn [mbind option_bind].
    assert (Hbody : take capacity (prefix ++ msg) = take capacity prefix).
    { apply take_app_le. sizes. }
    assert (Hh : holds buf1 (take capacity (prefix ++ msg))).
    { rewrite Hbody. eexists. split; [exact Hbuf1|done]. }
    case_bool_decide.
    + exists buf1. split; [|done]. eapply store_terminator_full; [done|].
      rewrite Hbody, length_take. sizes.
    + by exists buf1. }
  - rewrite to_size_t_small by sizes.
    rewrite snprintf_stores by (rewrite ?Hlen1; sizes).
    cbn [mbind option_bind].
    rewrite Nat2Z.id.
    replace (Z.to_nat (sizeof_buf - Z.of_nat (length prefix)) - 1)%nat
      with (capacity - length prefix)%nat by sizes.
    set (buf2 := store_at _ _ _).
    assert (Htp : take capacity prefix = prefix)
      by (apply take_ge; sizes).
    assert (Hlen2 : length buf2 = 4096%nat).
    { unfold buf2. rewrite length_store_at; [done|].
      rewrite Hlen1, length_app, length_take. sizes. }
    assert (Hh : holds buf2 (take capacity (prefix ++ msg))).
    { rewrite take_app, Htp. eexists. split; [|done].
      unfold buf2, store_at. rewrite Hbuf1 at 1. rewrite Htp, take_app_length.
      by rewrite <- !app_assoc. }
    case_bool_decide as Hneg.
    + exists buf2. split; [|done]. eapply store_terminator_full; [done|].
      apply printed_failed in Hneg.
      rewrite length_take, length_app. sizes.
    + by exists buf2.
Qed.

Lemma store_middle (l1 l2 : bytes) (x y : ascii) (i : Z) :
  i = Z.of_nat (length l1) → store (l1 ++ x :: l2) i y = Some (l1 ++ y :: l2).
Proof.
  intros ->. unfold store.
  rewrite bool_decide_eq_true_2 by (rewrite length_app; cbn [length]; lia).
  rewrite Nat2Z.id, insert_app_r_alt by lia.
  by rewrite Nat.sub_diag.
Qed.

Lemma load_middle (l1 l2 : bytes) (x : ascii) (i : Z) :
  i = Z.of_nat (length l1) → load (l1 ++ x :: l2) i = Some x.
Proof.
  intros ->. unfold load. rewrite bool_decide_eq_true_2 by lia.
  rewrite Nat2Z.id. by apply list_lookup_middle.
Qed.

Lemma close_line_snoc (s : bytes) (c : ascii) :
  close_line (s ++ [c]) =
    if Ascii.eqb c NL then s ++ [c]
    else if bool_decide (length s + 1 < capacity)%nat then s ++ [c; NL]
    else s ++ [NL].
Proof.
  unfold close_line. rewrite last_snoc, length_app. cbn [length].
  destruct (Ascii.eqb c NL); [done|].
  case_bool_decide.
  - by rewrite <- app_assoc.
  - replace (length s + 1 - 1)%nat with (length s) by lia.
    by rewrite take_app_length.
Qed.

Lemma nul_free_close_line (s : bytes) : nul_free s → nul_free (close_line s).
Proof.
  intros Hs. unfold close_line. repeat case_match; try done.
  - apply nul_free_app. split; [done|]. by repeat constructor.
  - apply nul_free_app. split; [by apply nul_free_take|]. by repeat constructor.
Qed.

Lemma terminate_holds (buf body : bytes) :
  nul_free body → body ≠ [] → holds buf body →
  ∃ buf', terminate buf = Some (buf', Z.of_nat (length (close_line body)))
          ∧ holds buf' (close_line body).
Proof.
  intros Hnf Hne Hh. pose proof (holds_length _ _ Hh) as Hcap.
  destruct Hh as (rest & -> & Hlen).
  destruct (exists_last Hne) as (s & c & ->). clear Hne.
  rewrite !length_app in Hlen. rewrite length_app in Hcap. cbn [length] in Hlen, Hcap.
  unfold terminate. rewrite strlen_terminated by done. cbn [mbind option_bind].
  rewrite length_app. cbn [length].
  rewrite !to_int_small by sizes.
  rewrite <- (app_assoc s [c]). cbn [app].
  rewrite (load_middle s) by lia.
  cbn [mbind option_bind]. rewrite close_line_snoc.
  destruct (Ascii.eqb c NL) eqn:Ec; cbn [negb].
  - eexists. split.
    + repeat f_equal. rewrite length_app. cbn [length]. lia.
    + exists rest. rewrite <- app_assoc. split; [done|].
      rewrite length_app. cbn [length]. lia.
  - case_bool_decide as Hroom.
    + (* room for one more character *)
      rewrite bool_decide_eq_true_2 by sizes.
      destruct rest as [|r rest]; [sizes|].
      replace (s ++ c :: NUL :: r :: rest) with ((s ++ [c]) ++ NUL :: r :: rest)
        by (by rewrite <- app_assoc).
      rewrite store_middle by (rewrite length_app; cbn [length]; lia).
      cbn [mbind option_bind].
      replace ((s ++ [c]) ++ NL :: r :: rest) with ((s ++ [c; NL]) ++ r :: rest)
        by (by rewrite <- !app_assoc).
      rewrite store_middle by (rewrite length_app; cbn [length]; lia).
      cbn [mbind option_bind].
      eexists. split.
      * repeat f_equal. rewrite length_app. cbn [length]. lia.
      * exists rest. split; [done|]. rewrite !length_app. cbn [length] in *. lia.
    + rewrite bool_decide_eq_false_2 by sizes.
      rewrite store_middle by lia.
      cbn [mbind option_bind].
      eexists. split.
      * repeat f_equal. rewrite length_app. cbn [length]. lia.
      * exists rest. rewrite <- app_assoc. split; [done|].
        rewrite !length_app. cbn [length] in *. lia.
Qed.

(** ** The thread name registry *)

Lemma vformat_u32 fp (n : Z) :
  vformat fp (lit "%u") [AUInt (n `mod` 2 ^ 32)] = Some (dec (Z.to_N (n `mod` 2 ^ 32))).
Proof.
  pose proof (Z.mod_pos_bound n (2 ^ 32) eq_refl) as H.
  change (vformat fp (lit "%u") [AUInt (n `mod` 2 ^ 32)])
    with (Some (fmt_decimal false 0 ((n `mod` 2 ^ 32) `mod` 2 ^ 32) ++ [])).
  rewrite app_nil_r, (Z.mod_small (n `mod` 2 ^ 32)) by done.
  unfold fmt_decimal. rewrite (proj2 (Z.ltb_ge _ _)) by lia.
  replace (Z.abs_N (n `mod` 2 ^ 32)) with (Z.to_N (n `mod` 2 ^ 32)) by lia.
  by rewrite Nat.sub_0_l.
Qed.

Lemma bind_run {A B} (m : M A) (f : A → M B) (w : world) :
  (m ≫= f) w = match m w with
               | Returns a w' => f a w'
               | Aborts w' => Aborts w'
               | Undefined => Undefined
               | OutOfFuel => OutOfFuel
               end.
Proof. reflexivity. Qed.

Lemma ret_run {A} (a : A) (w : world) : mret (M := M) a w = Returns a w.
Proof. reflexivity. Qed.

Lemma world_eta w :
  World (log_level w) (heap w) (thread_name_key w) (clock w) (output w) = w.
Proof. by destruct w. Qed.

Lemma w_get_thread_name_spec P self w :
  ∃ a, w_get_thread_name P self w = Returns (Some a) (named self w)
       ∧ thread_name_key (named self w) !! self = Some a
       ∧ heap (named self w) !! a = thread_name self w.
Proof.
  unfold w_get_thread_name, named, thread_name. rewrite bind_run.
  unfold pthread_getspecific at 1.
  destruct (thread_name_key w !! self) as [a|] eqn:E.
  - exists a. by rewrite ret_run.
  - exists (fresh (dom (heap w))).
    unfold w_set_thread_name. rewrite bind_run. unfold pthread_getspecific at 1.
    rewrite E, bind_run. cbn [free]. rewrite bind_run.
    unfold vasprintf. rewrite bind_run, vformat_u32. cbn [defined]. rewrite ret_run.
    rewrite bind_run. unfold malloc_str at 1. rewrite ret_run, bind_run.
    unfold pthread_setspecific. rewrite ret_run. cbn [log_level heap thread_name_key clock output].
    split_and?; [done|..]; by rewrite lookup_insert_eq.
Qed.

Lemma named_idem self w : named self (named self w) = named self w.
Proof.
  unfold named. destruct (thread_name_key w !! self) eqn:E; [by rewrite E|].
  cbn [thread_name_key]. by rewrite lookup_insert_eq.
Qed.

(** ** The prefix *)

Lemma fmt_string_0 (s : bytes) : fmt_string 0 s = c_str s.
Proof. unfold fmt_string. by rewrite Nat.sub_0_l. Qed.

Lemma nul_free_strftime max t ts : strftime max t = Some ts → nul_free ts.
Proof.
  unfold strftime. case_bool_decide; [|done]. intros [= <-].
  unfold timestamp. rewrite !nul_free_app. split_and?;
    try apply nul_free_fmt_decimal; by repeat constructor.
Qed.

Lemma log_prefix_shape P tv name prefix :
  log_prefix P tv name = Some prefix →
  ∃ ts, strftime 64 (localtime_r P (tv_sec tv)) = Some ts
        ∧ prefix = ts ++ lit "," ++ fmt_decimal true 3 (to_int (tv_usec tv) `quot` 1000)
                      ++ lit ": [" ++ c_str name ++ lit "] ".
Proof.
  unfold log_prefix. destruct (strftime _ _) as [ts|] eqn:Ets; [|done].
  cbn [mbind option_bind]. intros H. exists ts. split; [done|].
  change (vformat (fmt_pointer P) (lit "%s,%03d: [%s] ")
            [AStr ts; AInt (to_int (tv_usec tv) `quot` 1000); AStr name])
    with (Some (fmt_string 0 ts ++ lit "," ++
                (fmt_decimal true 3 (to_int (tv_usec tv) `quot` 1000) ++ lit ": [" ++
                 (fmt_string 0 name ++ lit "] ")))) in H.
  rewrite !fmt_string_0 in H.
  rewrite (c_str_nul_free ts) in H by (by eapply nul_free_strftime).
  by simplify_eq.
Qed.

Lemma log_prefix_nul_free P tv name prefix :
  log_prefix P tv name = Some prefix → nul_free prefix.
Proof.
  unfold log_prefix. destruct (strftime _ _); [|done]. apply nul_free_vformat.
Qed.

Lemma log_prefix_nonempty P tv name prefix :
  log_prefix P tv name = Some prefix → prefix ≠ [].
Proof.
  intros (ts & _ & ->)%log_prefix_shape. by destruct ts.
Qed.

(** ** One call of the formatter *)

Lemma read_clock_run P w : read_clock P w = Returns (gettimeofday P (clock w)) (tick w).
Proof. reflexivity. Qed.

Lemma format_line_spec P self fmt ap w name prefix msg :
  thread_name self w = Some name →
  log_prefix P (gettimeofday P (clock w)) name = Some prefix →
  (length prefix ≤ 4096)%nat →
  vformat (fmt_pointer P) fmt ap = Some msg →
  ∃ buf, format_line P self fmt ap w
         = Returns (buf, Z.of_nat (length (line_of prefix msg))) (named self (tick w))
         ∧ holds buf (line_of prefix msg).
Proof.
  intros Hname Hprefix Hfits Hmsg.
  pose proof (log_prefix_nul_free _ _ _ _ Hprefix) as Hnfp.
  pose proof (nul_free_vformat _ _ _ _ Hmsg) as Hnfm.
  destruct (render_holds P prefix msg Hfits) as (buf1 & Hrender & Hh1).
  unfold line_of.
  assert (Hnfb : nul_free (take capacity (prefix ++ msg))).
  { apply nul_free_take, nul_free_app. split; assumption. }
  assert (Hne : take capacity (prefix ++ msg) ≠ []).
  { pose proof (log_prefix_nonempty _ _ _ _ Hprefix) as Hp.
    intros Heq%(f_equal length). rewrite length_take, length_app in Heq.
    destruct prefix; [by apply Hp|]. sizes. }
  destruct (terminate_holds buf1 _ Hnfb Hne Hh1) as (buf & Hterm & Hh).
  exists buf. split; [|done].
  unfold format_line. rewrite bind_run, read_clock_run, bind_run.
  destruct (w_get_thread_name_spec P self (tick w)) as (a & -> & _ & Hheap).
  rewrite bind_run. unfold deref at 1. rewrite Hheap.
  change (thread_name self (tick w)) with (thread_name self w). rewrite Hname.
  rewrite bind_run, Hprefix. cbn [defined]. rewrite ret_run.
  rewrite bind_run, Hmsg. cbn [defined]. rewrite ret_run.
  rewrite bind_run, Hrender. cbn [defined]. rewrite ret_run.
  rewrite Hterm. reflexivity.
Qed.

(** ** One call of the entry point *)

Lemma w_log_no_listener P self fuel level fmt ap w :
  ¬ level ≤ log_level w →
  w_should_log_to_clients P level = false →
  w_log P self (S fuel) level fmt ap w = Returns tt w.
Proof.
  intros Hlevel Hclients. cbn [w_log].
  by rewrite bool_decide_eq_false_2, Hclients.
Qed.

Lemma line_of_nul_free prefix msg :
  nul_free prefix → nul_free msg → nul_free (line_of prefix msg).
Proof.
  intros. apply nul_free_close_line, nul_free_take, nul_free_app. done.
Qed.

Lemma w_log_listened P self fuel level fmt ap w name prefix msg :
  let to_stderr := bool_decide (level ≤ log_level w) in
  let to_clients := w_should_log_to_clients P level in
  to_stderr || to_clients = true →
  thread_name self w = Some name →
  log_prefix P (gettimeofday P (clock w)) name = Some prefix →
  (length prefix ≤ 4096)%nat →
  vformat (fmt_pointer P) fmt ap = Some msg →
  w_log P self (S fuel) level fmt ap w =
    if bool_decide (level = W_LOG_FATAL P) then
      (log_stack_trace P self fuel;; abort)
        (record (sinks to_stderr to_clients (W_LOG_ERR P) (line_of prefix msg))
           (named self (tick w)))
    else
      Returns tt (record (sinks to_stderr to_clients level (line_of prefix msg))
                    (named self (tick w))).
Proof.
  intros to_stderr to_clients Hgate Hname Hprefix Hfits Hmsg.
  destruct (format_line_spec P self fmt ap w name prefix msg) as (buf & Hfmt & Hh);
    [done..|].
  assert (Hnf : nul_free (line_of prefix msg)).
  { apply line_of_nul_free; [by eapply log_prefix_nul_free|by eapply nul_free_vformat]. }
  cbn [w_log]. fold to_stderr to_clients. rewrite Hgate. cbn [negb].
  case_bool_decide as Hfatal;
    rewrite bind_run, Hfmt, Nat2Z.id, (holds_take _ _ Hh), (holds_c_str _ _ Hnf Hh);
    unfold sinks, record, log_stack_trace;
    destruct to_stderr, to_clients;
    rewrite ?bind_run, ?ret_run; unfold emit;
    rewrite ?bind_run, ?ret_run;
    cbn [output log_level heap thread_name_key clock app];
    rewrite <- ?app_assoc, ?app_nil_r, ?world_eta; done.
Qed.

(** ** The state between calls *)

Lemma named_set self w :
  is_Some (thread_name_key w !! self) → named self w = w.
Proof. intros [a Ha]. unfold named. by rewrite Ha. Qed.

Lemma named_is_set self w : is_Some (thread_name_key (named self w) !! self).
Proof.
  unfold named. destruct (thread_name_key w !! self) eqn:E; [by rewrite E|].
  cbn [thread_name_key]. by rewrite lookup_insert_eq.
Qed.

Lemma thread_name_named self w : thread_name self (named self w) = thread_name self w.
Proof.
  unfold thread_name, named. destruct (thread_name_key w !! self) eqn:E; [by rewrite E|].
  cbn [thread_name_key heap]. by rewrite !lookup_insert_eq.
Qed.

Lemma named_advance self k w : named self (advance k w) = advance k (named self w).
Proof. unfold named, advance. cbn. by destruct (thread_name_key w !! self). Qed.

Lemma advance_record k es w : advance k (record es w) = record es (advance k w).
Proof. reflexivity. Qed.

Lemma record_record es1 es2 w : record es2 (record es1 w) = record (es1 ++ es2) w.
Proof. unfold record. cbn. by rewrite app_assoc. Qed.

Lemma advance_advance j k w : advance j (advance k w) = advance (k + j) w.
Proof. unfold advance. cbn. f_equal. lia. Qed.

Lemma record_nil w : record [] w = w.
Proof. unfold record. rewrite app_nil_r. apply world_eta. Qed.

Lemma advance_0 w : advance 0 w = w.
Proof. apply world_eta. Qed.

Lemma clock_named self w : clock (named self w) = clock w.
Proof. unfold named. by destruct (thread_name_key w !! self). Qed.

Lemma log_level_named self w : log_level (named self w) = log_level w.
Proof. unfold named. by destruct (thread_name_key w !! self). Qed.

Lemma output_named self w : output (named self w) = output w.
Proof. unfold named. by destruct (thread_name_key w !! self). Qed.

Lemma log_level_record es w : log_level (record es w) = log_level w.
Proof. reflexivity. Qed.

Lemma log_level_advance k w : log_level (advance k w) = log_level w.
Proof. reflexivity. Qed.

Lemma clock_record es w : clock (record es w) = clock w.
Proof. reflexivity. Qed.

Lemma clock_advance k w : clock (advance k w) = (k + clock w)%nat.
Proof. reflexivity. Qed.

Lemma output_record es w : output (record es w) = output w ++ es.
Proof. reflexivity. Qed.

Lemma output_advance k w : output (advance k w) = output w.
Proof. reflexivity. Qed.

Lemma is_set_record self es w :
  is_Some (thread_name_key w !! self) → is_Some (thread_name_key (record es w) !! self).
Proof. done. Qed.

Lemma is_set_advance self k w :
  is_Some (thread_name_key w !! self) → is_Some (thread_name_key (advance k w) !! self).
Proof. done. Qed.

Lemma thread_name_record self es w : thread_name self (record es w) = thread_name self w.
Proof. reflexivity. Qed.

Lemma thread_name_advance self k w : thread_name self (advance k w) = thread_name self w.
Proof. reflexivity. Qed.

(** ** The fatal path *)

Lemma vformat_frame fp (frame : bytes) :
  vformat fp (lit "%s" ++ [NL]) [AStr frame] = Some (c_str frame ++ [NL]).
Proof.
  change (vformat fp (lit "%s" ++ [NL]) [AStr frame]) with (Some (fmt_string 0 frame ++ [NL])).
  by rewrite fmt_string_0.
Qed.

Lemma vformat_header fp : vformat fp header [] = Some header.
Proof. reflexivity. Qed.

Lemma line_at_prefix P n name prefix msg :
  log_prefix P (gettimeofday P n) name = Some prefix →
  line_at P n name msg = line_of prefix msg.
Proof. intros H. unfold line_at. by rewrite H. Qed.

Lemma never_returns {A B} (m : M A) (w : world) (b : B) (w' : world) :
  (m;; abort) w ≠ Returns b w'.
Proof. rewrite bind_run. by destruct (m w). Qed.

Lemma frames_logged P self fuel name : ∀ frames w,
  W_LOG_ERR P ≠ W_LOG_FATAL P →
  bool_decide (W_LOG_ERR P ≤ log_level w) || w_should_log_to_clients P (W_LOG_ERR P) = true →
  is_Some (thread_name_key w !! self) →
  thread_name self w = Some name →
  (∀ k, (k < length frames)%nat → prefix_fits P (k + clock w) name) →
  for_each frames (λ s, w_log P self (S fuel) (W_LOG_ERR P) (lit "%s" ++ [NL]) [AStr s]) w
  = Returns tt
      (record (concat (sinks (bool_decide (W_LOG_ERR P ≤ log_level w))
                         (w_should_log_to_clients P (W_LOG_ERR P)) (W_LOG_ERR P)
                         <$> frame_lines P (clock w) name frames))
         (advance (length frames) w)).
Proof.
  induction frames as [|f frames IH]; intros w Hne Hgate Hset Hname Hfits.
  - cbn [for_each frame_lines fmap list_fmap concat length].
    by rewrite ret_run, advance_0, record_nil.
  - cbn [for_each]. rewrite bind_run.
    destruct (Hfits 0%nat) as (prefix & Hprefix & Hlen); [cbn [length]; lia|].
    rewrite (w_log_listened P self fuel _ _ _ w name prefix (c_str f ++ [NL])
               Hgate Hname Hprefix Hlen (vformat_frame _ _)).
    rewrite bool_decide_eq_false_2 by exact Hne.
    rewrite <- (line_at_prefix _ _ _ _ _ Hprefix).
    unfold tick. rewrite named_advance, (named_set self w Hset).
    rewrite IH.
    + rewrite log_level_record, log_level_advance, clock_record, clock_advance.
      rewrite advance_record, record_record, advance_advance.
      cbn [frame_lines fmap list_fmap concat length].
      reflexivity.
    + exact Hne.
    + rewrite log_level_record, log_level_advance. exact Hgate.
    + apply is_set_record, is_set_advance, Hset.
    + rewrite thread_name_record, thread_name_advance. exact Hname.
    + intros k Hk. rewrite clock_record, clock_advance.
      replace (k + (1 + clock w))%nat with (S k + clock w)%nat by lia.
      apply Hfits. cbn [length]. lia.
Qed.

Lemma log_stack_trace_spec P self fuel w name :
  W_LOG_ERR P ≠ W_LOG_FATAL P →
  bool_decide (W_LOG_ERR P ≤ log_level w) || w_should_log_to_clients P (W_LOG_ERR P) = true →
  is_Some (thread_name_key w !! self) →
  thread_name self w = Some name →
  (∀ k, (k ≤ length (take 24 (call_stack P)))%nat → prefix_fits P (k + clock w) name) →
  log_stack_trace P self (S fuel) w =
    Returns tt
      (if HAVE_BACKTRACE P then
         record (sinks (bool_decide (W_LOG_ERR P ≤ log_level w))
                   (w_should_log_to_clients P (W_LOG_ERR P)) (W_LOG_ERR P)
                   (line_at P (clock w) name header)
                 ++ concat (sinks (bool_decide (W_LOG_ERR P ≤ log_level w))
                              (w_should_log_to_clients P (W_LOG_ERR P)) (W_LOG_ERR P)
                              <$> frame_lines P (S (clock w)) name (take 24 (call_stack P))))
           (advance (S (length (take 24 (call_stack P)))) w)
       else w).
Proof.
  intros Hne Hgate Hset Hname Hfits.
  unfold log_stack_trace, log_stack_trace_with.
  destruct (HAVE_BACKTRACE P); [|apply ret_run].
  rewrite bind_run. fold header.
  destruct (Hfits 0%nat) as (p & Hp & Hl); [lia|].
  rewrite (w_log_listened P self fuel _ header [] w name p header Hgate Hname Hp Hl
             (vformat_header _)).
  rewrite bool_decide_eq_false_2 by exact Hne.
  rewrite <- (line_at_prefix _ _ _ _ header Hp).
  unfold tick. rewrite named_advance, (named_set self w Hset).
  rewrite (frames_logged P self fuel name).
  - rewrite log_level_record, log_level_advance, clock_record, clock_advance.
    rewrite advance_record, record_record, advance_advance.
    replace (1 + length (take 24 (call_stack P)))%nat
      with (S (length (take 24 (call_stack P)))) by reflexivity.
    reflexivity.
  - exact Hne.
  - rewrite log_level_record, log_level_advance. exact Hgate.
  - apply is_set_record, is_set_advance, Hset.
  - rewrite thread_name_record, thread_name_advance. exact Hname.
  - intros k Hk. rewrite clock_record, clock_advance.
    replace (k + (1 + clock w))%nat with (S k + clock w)%nat by lia.
    apply Hfits. lia.
Qed.


(** * The entry point *)

(** C2. A call whose severity is numerically greater than the configured
    level, while the client predicate answers no, returns at once and leaves
    the whole state as it was: nothing reaches standard error or the client
    sink, the clock is not read and no thread name is assigned. The format
    and its arguments are never looked at, so this holds even for those that
    could not be rendered. *)
Theorem unheard_call_returns_at_once P self fuel level fmt ap w :
  log_level w < level →
  w_should_log_to_clients P level = false →
  w_log P self (S fuel) level fmt ap w = Returns tt w.
Proof. intros Hlevel Hclients. apply w_log_no_listener; [lia|done]. Qed.

Lemma unheard_call_returns_at_once_witness :
  w_log (sample_platform 1 (-1) (λ _, false) []) 77 1 2 (lit "%s") [] (initial_world 1)
  = Returns tt (initial_world 1).
Proof.
  apply (unheard_call_returns_at_once (sample_platform 1 (-1) (λ _, false) []) 77 0 2
           (lit "%s") [] (initial_world 1)).
  - simpl. lia.
  - reflexivity.
Defined.

(** C3. A call with the fatal severity for which neither gate passes (the
    fatal value is not below or at the configured level, and the client
    predicate refuses it) returns normally and leaves the state as it was:
    no stack trace is logged and [abort] is not reached. *)
Theorem unheard_fatal_call_returns P self fuel fmt ap w :
  ¬ W_LOG_FATAL P ≤ log_level w →
  w_should_log_to_clients P (W_LOG_FATAL P) = false →
  w_log P self (S fuel) (W_LOG_FATAL P) fmt ap w = Returns tt w.
Proof. apply w_log_no_listener. Qed.

Lemma unheard_fatal_call_returns_witness :
  w_log (sample_platform 1 3 (λ _, false) [lit "main"]) 77 2 3 (lit "giving up") []
    (initial_world 1)
  = Returns tt (initial_world 1).
Proof.
  apply (unheard_fatal_call_returns (sample_platform 1 3 (λ _, false) [lit "main"]) 77 1
           (lit "giving up") [] (initial_world 1)).
  - simpl. lia.
  - reflexivity.
Defined.

(** C1. A call with the fatal severity that is heard hands its own line to
    the sinks whose gates pass for it (to both, when both pass), then the
    header line, then one line per captured frame in capture order (at most
    24 of them), and ends in [abort]: the outcome is never a return. Without
    stack-capture support neither header nor frames are logged before
    [abort]. Header and frames are calls of error severity and go to the
    sinks whose gates pass for that severity. Each of these lines is the
    prefix of its own clock reading, its text and a newline whenever that
    fits the buffer ([line_at_fits]). *)
Theorem fatal_call_traces_then_aborts P self fuel fmt ap w name msg :
  W_LOG_ERR P ≠ W_LOG_FATAL P →
  heard P (W_LOG_FATAL P) w = true →
  heard P (W_LOG_ERR P) w = true →
  thread_name self w = Some name →
  vformat (fmt_pointer P) fmt ap = Some msg →
  (∀ k, (k ≤ S (length (take 24 (call_stack P))))%nat → prefix_fits P (k + clock w) name) →
  ∃ w', w_log P self (S (S fuel)) (W_LOG_FATAL P) fmt ap w = Aborts w'
    ∧ output w' =
        output w
        ++ delivered P (W_LOG_FATAL P) (W_LOG_ERR P) w (line_at P (clock w) name msg)
        ++ (if HAVE_BACKTRACE P then
              delivered P (W_LOG_ERR P) (W_LOG_ERR P) w (line_at P (S (clock w)) name header)
              ++ concat (delivered P (W_LOG_ERR P) (W_LOG_ERR P) w
                           <$> frame_lines P (S (S (clock w))) name (take 24 (call_stack P)))
            else []).
Proof.
  unfold heard, delivered, gates. cbn [fst snd].
  intros Hne Hfatal Herr Hname Hmsg Hfits.
  destruct (Hfits 0%nat) as (p & Hp & Hl); [lia|].
  rewrite (w_log_listened P self (S fuel) _ fmt ap w name p msg Hfatal Hname Hp Hl Hmsg).
  rewrite bool_decide_eq_true_2 by reflexivity.
  rewrite <- (line_at_prefix _ _ _ _ msg Hp).
  unfold tick. rewrite named_advance, bind_run.
  rewrite (log_stack_trace_spec P self fuel _ name).
  - eexists. split; [reflexivity|].
    rewrite log_level_record, log_level_advance, log_level_named.
    rewrite clock_record, clock_advance, clock_named.
    destruct (HAVE_BACKTRACE P).
    + rewrite output_record, output_advance, output_record, output_advance, output_named.
      rewrite <- app_assoc. reflexivity.
    + rewrite app_nil_r, output_record, output_advance, output_named. reflexivity.
  - exact Hne.
  - rewrite log_level_record, log_level_advance, log_level_named. exact Herr.
  - apply is_set_record, is_set_advance, named_is_set.
  - rewrite thread_name_record, thread_name_advance, thread_name_named. exact Hname.
  - intros k Hk. rewrite clock_record, clock_advance, clock_named.
    replace (k + (1 + clock w))%nat with (S k + clock w)%nat by lia.
    apply Hfits. lia.
Qed.

Lemma fatal_call_traces_then_aborts_witness :
  ∃ w', w_log (sample_platform 1 (-1) (λ _, true) [lit "frame_a"; lit "frame_b"]) 77 2 (-1)
          (lit "giving up: %d") [AInt 7] (initial_world 1) = Aborts w'
    ∧ output w' =
        [ Stderr (lit "2016-03-04T05:06:07,000: [77] giving up: 7" ++ [NL]);
          ToClients 1 (lit "2016-03-04T05:06:07,000: [77] giving up: 7" ++ [NL]);
          Stderr (lit "2016-03-04T05:06:07,001: [77] Fatal error detected at:" ++ [NL]);
          ToClients 1 (lit "2016-03-04T05:06:07,001: [77] Fatal error detected at:" ++ [NL]);
          Stderr (lit "2016-03-04T05:06:07,002: [77] frame_a" ++ [NL]);
          ToClients 1 (lit "2016-03-04T05:06:07,002: [77] frame_a" ++ [NL]);
          Stderr (lit "2016-03-04T05:06:07,003: [77] frame_b" ++ [NL]);
          ToClients 1 (lit "2016-03-04T05:06:07,003: [77] frame_b" ++ [NL]) ].
Proof.
  destruct (fatal_call_traces_then_aborts
              (sample_platform 1 (-1) (λ _, true) [lit "frame_a"; lit "frame_b"]) 77 0
              (lit "giving up: %d") [AInt 7] (initial_world 1)
              (default_name 77) (lit "giving up: 7")) as (w' & Hrun & Hout).
  - simpl. lia.
  - reflexivity.
  - reflexivity.
  - reflexivity.
  - reflexivity.
  - intros k Hk. simpl in Hk.
    destruct k as [|[|[|[|k]]]]; [| | | |lia];
      (eexists; split; [reflexivity|apply Nat.leb_le; vm_compute; reflexivity]).
  - exists w'. split; [exact Hrun|]. rewrite Hout. vm_compute. reflexivity.
Defined.

(** The lines of the trace have gates of their own, those of the error
    severity: with the level at 0 an unheard header and unheard frames are
    dropped, and [abort] follows the line of the call at once. *)
Example trace_unheard_below_error :
  w_log (sample_platform 1 (-1) (λ _, false) [lit "frame_a"]) 77 2 (-1) (lit "boom") []
    (initial_world 0)
  = Aborts (World 0 {[ 1%positive := lit "77" ]} {[ 77 := 1%positive ]} 1
              [Stderr (lit "2016-03-04T05:06:07,000: [77] boom" ++ [NL])]).
Proof. vm_compute. reflexivity. Qed.

(** ** The fatal severity and the gates *)

(** C4, as stated, fails. With error 1 and fatal -1, the level at 0 and no
    client, the gates of the error severity are both closed and an error
    call is dropped, yet the fatal call is written and aborts. With fatal 3 above error 1 and
    the level at 1 it is the other way round: the error severity passes the
    threshold and an error call is written, yet the fatal call returns with
    nothing written. *)
Lemma fatal_call_not_judged_as_error :
  (gates (sample_platform 1 (-1) (λ _, false) []) 1 (initial_world 0) = (false, false)
   ∧ w_log (sample_platform 1 (-1) (λ _, false) []) 77 2 1 (lit "boom") [] (initial_world 0)
     = Returns tt (initial_world 0)
   ∧ w_log (sample_platform 1 (-1) (λ _, false) []) 77 2 (-1) (lit "boom") [] (initial_world 0)
     = Aborts (World 0 {[ 1%positive := lit "77" ]} {[ 77 := 1%positive ]} 1
                 [Stderr (lit "2016-03-04T05:06:07,000: [77] boom" ++ [NL])]))
  ∧
  (gates (sample_platform 1 3 (λ _, false) []) 1 (initial_world 1) = (true, false)
   ∧ w_log (sample_platform 1 3 (λ _, false) []) 77 2 1 (lit "boom") [] (initial_world 1)
     = Returns tt (World 1 {[ 1%positive := lit "77" ]} {[ 77 := 1%positive ]} 1
                     [Stderr (lit "2016-03-04T05:06:07,000: [77] boom" ++ [NL])])
   ∧ w_log (sample_platform 1 3 (λ _, false) []) 77 2 3 (lit "boom") [] (initial_world 1)
     = Returns tt (initial_world 1)).
Proof. repeat split; vm_compute; reflexivity. Qed.

(** C4, amended. The gates of a fatal call are those of the fatal value as it
    was passed, not those of the error severity. When one of them passes, the
    line is formatted as any other, the client sink receives it with the
    error severity, and the fatal flag takes effect after both sinks were
    served: the stack trace is logged and [abort] is called. The call
    returns only when neither gate of the fatal value passes. *)
Theorem fatal_call_gated_as_passed P self fuel fmt ap w name prefix msg :
  thread_name self w = Some name →
  log_prefix P (gettimeofday P (clock w)) name = Some prefix →
  (length prefix ≤ 4096)%nat →
  vformat (fmt_pointer P) fmt ap = Some msg →
  w_log P self (S fuel) (W_LOG_FATAL P) fmt ap w =
    (if heard P (W_LOG_FATAL P) w then
       (log_stack_trace P self fuel;; abort)
         (record (delivered P (W_LOG_FATAL P) (W_LOG_ERR P) w (line_of prefix msg))
            (named self (tick w)))
     else Returns tt w)
  ∧ (∀ w', w_log P self (S fuel) (W_LOG_FATAL P) fmt ap w = Returns tt w' →
           gates P (W_LOG_FATAL P) w = (false, false)).
Proof.
  intros Hname Hprefix Hfits Hmsg. unfold heard, delivered, gates. cbn [fst snd].
  destruct (bool_decide (W_LOG_FATAL P ≤ log_level w)
            || w_should_log_to_clients P (W_LOG_FATAL P)) eqn:Hgate.
  - rewrite (w_log_listened P self fuel _ fmt ap w name prefix msg Hgate Hname Hprefix
               Hfits Hmsg).
    rewrite bool_decide_eq_true_2 by reflexivity.
    split; [reflexivity|]. intros w' Hret. by apply never_returns in Hret.
  - apply orb_false_elim in Hgate as [Hs Hc].
    rewrite w_log_no_listener; [|by apply bool_decide_eq_false in Hs|exact Hc].
    split; [reflexivity|]. intros _ _. by rewrite Hs, Hc.
Qed.

Lemma fatal_call_gated_as_passed_witness :
  w_log (sample_platform 1 (-1) (λ level, bool_decide (level = -1)) []) 77 2 (-1)
    (lit "boom") [] (initial_world 0)
  = Aborts (World 0 {[ 1%positive := lit "77" ]} {[ 77 := 1%positive ]} 1
              [ Stderr (lit "2016-03-04T05:06:07,000: [77] boom" ++ [NL]);
                ToClients 1 (lit "2016-03-04T05:06:07,000: [77] boom" ++ [NL]) ]).
Proof.
  destruct (fatal_call_gated_as_passed
              (sample_platform 1 (-1) (λ level, bool_decide (level = -1)) []) 77 1
              (lit "boom") [] (initial_world 0) (lit "77")
              (lit "2016-03-04T05:06:07,000: [77] ") (lit "boom")) as [Hrun _].
  - reflexivity.
  - reflexivity.
  - apply Nat.leb_le. vm_compute. reflexivity.
  - reflexivity.
  - refine (eq_trans Hrun _). vm_compute. reflexivity.
Defined.

(** * The line in the buffer *)

Lemma close_line_cases (s : bytes) :
  s ≠ [] →
  last (close_line s) = Some NL
  ∧ (last s = Some NL → close_line s = s)
  ∧ (last s ≠ Some NL → (length s < capacity)%nat → close_line s = s ++ [NL])
  ∧ (last s ≠ Some NL → ¬ (length s < capacity)%nat →
     close_line s = take (length s - 1) s ++ [NL]).
Proof.
  intros Hne. destruct (exists_last Hne) as (s' & c & ->).
  rewrite close_line_snoc, last_snoc, !length_app. cbn [length].
  replace (length s' + 1 - 1)%nat with (length s') by lia.
  rewrite take_app_length.
  destruct (Ascii.eqb c NL) eqn:Ec.
  - apply Ascii.eqb_eq in Ec as ->. rewrite last_snoc. by repeat split.
  - apply Ascii.eqb_neq in Ec.
    case_bool_decide; repeat split; intros; try done; try congruence.
    + replace (s' ++ [c; NL]) with ((s' ++ [c]) ++ [NL]) by (by rewrite <- app_assoc).
      apply last_snoc.
    + by rewrite <- app_assoc.
    + apply last_snoc.
Qed.

(** What [w_log] hands to its sinks is the buffer and length of lines
    145-174, [format_line] in this model: [write] receives the first [len]
    characters of the buffer, the client sink the string in it. *)
Lemma w_log_delivers P self fuel level fmt ap w buf len w1 :
  format_line P self fmt ap w = Returns (buf, Z.of_nat len) w1 →
  c_str buf = take len buf →
  level ≠ W_LOG_FATAL P →
  heard P level w = true →
  w_log P self (S fuel) level fmt ap w
  = Returns tt (record (delivered P level level w (take len buf)) w1).
Proof.
  unfold heard, delivered, gates. cbn [fst snd]. intros Hrun Hstr Hlevel Hheard.
  cbn [w_log]. rewrite Hheard. cbn [negb].
  rewrite bool_decide_eq_false_2 by exact Hlevel.
  rewrite bind_run, Hrun, Nat2Z.id, Hstr.
  unfold sinks, record.
  destruct (bool_decide (level ≤ log_level w)), (w_should_log_to_clients P level);
    rewrite ?bind_run, ?ret_run; unfold emit;
    rewrite ?bind_run, ?ret_run;
    cbn [output log_level heap thread_name_key clock app];
    rewrite <- ?app_assoc, ?app_nil_r, ?world_eta; reflexivity.
Qed.


(** C5, as stated, fails. A message that itself ends in two newlines is
    emitted as it is, so the line ends in two newlines, not in exactly one.
    And a message without any final newline that fills the buffer exactly,
    with a newline as its last character but one, has its last character
    replaced by a newline and so ends in two as well. *)
Lemma line_may_end_in_two_newlines :
  (∃ buf w',
     format_line quiet_platform 77 (lit "done" ++ [NL; NL]) [] (initial_world 1)
     = Returns (buf, 36) w'
     ∧ take 36 buf = lit "2016-03-04T05:06:07,000: [77] done" ++ [NL; NL]
     ∧ trailing_newlines (take 36 buf) = 2%nat)
  ∧
  (∃ buf w',
     format_line quiet_platform 77 (replicate 4063 "a"%char ++ [NL] ++ lit "x") []
       (initial_world 1)
     = Returns (buf, 4095) w'
     ∧ length (lit "2016-03-04T05:06:07,000: [77] "
               ++ replicate 4063 "a"%char ++ [NL] ++ lit "x") = 4095%nat
     ∧ take 4095 buf = lit "2016-03-04T05:06:07,000: [77] "
                       ++ replicate 4063 "a"%char ++ [NL; NL]
     ∧ trailing_newlines (take 4095 buf) = 2%nat).
Proof. split; do 2 eexists; split_and!; vm_compute; reflexivity. Qed.

(** C5, amended. Every line the entry point formats ends in a newline, and
    the entry point adds at most one: when the rendered characters (prefix
    and message, cut to the capacity of the buffer) do not end in a newline,
    one is appended if there is room and otherwise replaces the last
    character; when they already end in a newline nothing is added. The
    buffer keeps its size and holds a terminator right behind the line. *)
Theorem line_closed_by_newline P self fmt ap w name prefix msg :
  thread_name self w = Some name →
  log_prefix P (gettimeofday P (clock w)) name = Some prefix →
  (length prefix ≤ 4096)%nat →
  vformat (fmt_pointer P) fmt ap = Some msg →
  ∃ buf len w',
    format_line P self fmt ap w = Returns (buf, Z.of_nat len) w'
    ∧ length buf = 4096%nat
    ∧ buf !! len = Some NUL
    ∧ c_str buf = take len buf
    ∧ last (take len buf) = Some NL
    ∧ (last (take capacity (prefix ++ msg)) = Some NL →
       take len buf = take capacity (prefix ++ msg))
    ∧ (last (take capacity (prefix ++ msg)) ≠ Some NL →
       (length (prefix ++ msg) < capacity)%nat →
       take len buf = prefix ++ msg ++ [NL])
    ∧ (last (take capacity (prefix ++ msg)) ≠ Some NL →
       (capacity ≤ length (prefix ++ msg))%nat →
       take len buf = take (capacity - 1) (prefix ++ msg) ++ [NL])
    ∧ (∀ fuel level, level ≠ W_LOG_FATAL P → heard P level w = true →
       w_log P self (S fuel) level fmt ap w
       = Returns tt (record (delivered P level level w (take len buf)) w')).
Proof.
  intros Hname Hprefix Hfits Hmsg.
  destruct (format_line_spec P self fmt ap w name prefix msg Hname Hprefix Hfits Hmsg)
    as (buf & Hrun & Hh).
  assert (Hnf : nul_free (line_of prefix msg)).
  { apply line_of_nul_free; [by eapply log_prefix_nul_free|by eapply nul_free_vformat]. }
  assert (Hne : take capacity (prefix ++ msg) ≠ []).
  { pose proof (log_prefix_nonempty _ _ _ _ Hprefix) as Hp.
    intros Heq%(f_equal length). rewrite length_take, length_app in Heq.
    destruct prefix; [by apply Hp|]. sizes. }
  destruct (close_line_cases _ Hne) as (Hlast & Hkeep & Happend & Hreplace).
  exists buf, (length (line_of prefix msg)), (named self (tick w)).
  rewrite (holds_take _ _ Hh), (holds_c_str _ _ Hnf Hh).
  split_and!.
  - exact Hrun.
  - by destruct Hh as (? & _ & ?).
  - by apply holds_terminator.
  - reflexivity.
  - exact Hlast.
  - exact Hkeep.
  - intros Hl Hroom. unfold line_of. rewrite Happend; [|done|].
    + rewrite take_ge by lia. by rewrite <- app_assoc.
    + rewrite length_take. lia.
  - intros Hl Hfull. unfold line_of. rewrite Hreplace; [|done|].
    + rewrite length_take. rewrite Nat.min_l by done.
      rewrite take_take. by rewrite Nat.min_l by lia.
    + rewrite length_take. lia.
  - intros fuel level Hlevel Hheard.
    pose proof (w_log_delivers P self fuel level fmt ap w buf _ _ Hrun) as Hlog.
    rewrite (holds_take _ _ Hh), (holds_c_str _ _ Hnf Hh) in Hlog.
    by apply Hlog.
Qed.

Lemma line_closed_by_newline_witness :
  ∃ buf len w',
    format_line quiet_platform 77 (lit "hello %d") [AInt 3]
      (initial_world 1) = Returns (buf, Z.of_nat len) w'
    ∧ take len buf = lit "2016-03-04T05:06:07,000: [77] hello 3" ++ [NL].
Proof.
  destruct (line_closed_by_newline quiet_platform 77
              (lit "hello %d") [AInt 3] (initial_world 1) (lit "77")
              (lit "2016-03-04T05:06:07,000: [77] ") (lit "hello 3"))
    as (buf & len & w' & Hrun & _ & _ & _ & _ & _ & Happend & _).
  - reflexivity.
  - reflexivity.
  - apply Nat.leb_le. vm_compute. reflexivity.
  - reflexivity.
  - exists buf, len, w'. split; [exact Hrun|]. apply Happend.
    + vm_compute. discriminate.
    + apply Nat.ltb_lt. vm_compute. reflexivity.
Defined.

Lemma close_line_full (s : bytes) :
  length s = capacity →
  length (close_line s) = capacity
  ∧ last (close_line s) = Some NL
  ∧ take (capacity - 1) (close_line s) = take (capacity - 1) s.
Proof.
  intros Hlen.
  assert (Hne : s ≠ []) by (intros ->; sizes).
  destruct (close_line_cases s Hne) as (Hlast & Hkeep & _ & Hreplace).
  split_and!; [|exact Hlast|]; destruct (decide (last s = Some NL)) as [Hl|Hl].
  - by rewrite Hkeep.
  - rewrite Hreplace by (done || lia).
    rewrite length_app, length_take. cbn [length]. sizes.
  - by rewrite Hkeep.
  - rewrite Hreplace by (done || lia). rewrite Hlen.
    rewrite take_app_le by (rewrite length_take; lia).
    rewrite take_take. by rewrite Nat.min_id.
Qed.

Lemma line_of_full (prefix msg : bytes) :
  (capacity ≤ length (prefix ++ msg))%nat →
  length (line_of prefix msg) = capacity
  ∧ last (line_of prefix msg) = Some NL
  ∧ take (capacity - 1) (line_of prefix msg) = take (capacity - 1) (prefix ++ msg).
Proof.
  intros Hlong. unfold line_of.
  destruct (close_line_full (take capacity (prefix ++ msg))) as (Hfull & Hlast & Hbody).
  { rewrite length_take. lia. }
  split_and!; [exact Hfull|exact Hlast|].
  rewrite Hbody, take_take. by rewrite Nat.min_l by lia.
Qed.

(** C6, as stated, fails: a message too long for the buffer, with a newline
    just before the place where the buffer ends, is emitted with two
    newlines at its end, the second of them written over the last character. *)
Lemma truncated_line_may_end_in_two_newlines :
  ∃ buf w',
    format_line quiet_platform 77
      (replicate 4063 "a"%char ++ [NL] ++ lit "tail") [] (initial_world 1)
    = Returns (buf, 4095) w'
    ∧ length (lit "2016-03-04T05:06:07,000: [77] "
              ++ replicate 4063 "a"%char ++ [NL] ++ lit "tail") = 4098%nat
    ∧ buf !! 4095%nat = Some NUL
    ∧ take 4095 buf = lit "2016-03-04T05:06:07,000: [77] "
                      ++ replicate 4063 "a"%char ++ [NL; NL]
    ∧ trailing_newlines (take 4095 buf) = 2%nat.
Proof. do 2 eexists. split_and!; vm_compute; reflexivity. Qed.

(** C6, amended. When the prefix is shorter than the capacity of the buffer
    and prefix and message together are longer, the emitted line has exactly
    the capacity of the buffer, the terminator follows it, and its last
    character is a newline; all characters before that are those of the
    prefix followed by the message, so the prefix is whole and the message is
    what was cut. *)
Theorem long_message_truncated P self fmt ap w name prefix msg :
  thread_name self w = Some name →
  log_prefix P (gettimeofday P (clock w)) name = Some prefix →
  (length prefix < capacity)%nat →
  vformat (fmt_pointer P) fmt ap = Some msg →
  (capacity < length (prefix ++ msg))%nat →
  ∃ buf w',
    format_line P self fmt ap w = Returns (buf, Z.of_nat capacity) w'
    ∧ length buf = 4096%nat
    ∧ buf !! capacity = Some NUL
    ∧ c_str buf = take capacity buf
    ∧ last (take capacity buf) = Some NL
    ∧ take (capacity - 1) buf = take (capacity - 1) (prefix ++ msg)
    ∧ take (length prefix) buf = prefix
    ∧ (∀ fuel level, level ≠ W_LOG_FATAL P → heard P level w = true →
       w_log P self (S fuel) level fmt ap w
       = Returns tt (record (delivered P level level w (take capacity buf)) w')).
Proof.
  intros Hname Hprefix Hshort Hmsg Hlong.
  destruct (format_line_spec P self fmt ap w name prefix msg Hname Hprefix) as (buf & Hrun & Hh);
    [sizes|exact Hmsg|].
  assert (Hnf : nul_free (line_of prefix msg)).
  { apply line_of_nul_free; [by eapply log_prefix_nul_free|by eapply nul_free_vformat]. }
  destruct (line_of_full prefix msg) as (Hfull & Hlast & Hbody); [lia|].
  pose proof (holds_take _ _ Hh) as Htake. rewrite Hfull in Htake.
  pose proof (holds_terminator _ _ Hh) as Hterm. rewrite Hfull in Hterm.
  pose proof (holds_c_str _ _ Hnf Hh) as Hstr.
  assert (Hbefore : take (capacity - 1) buf = take (capacity - 1) (prefix ++ msg)).
  { rewrite <- Hbody, <- Htake, take_take. by rewrite Nat.min_l by lia. }
  exists buf, (named self (tick w)). rewrite Hfull in Hrun.
  split_and!.
  - exact Hrun.
  - by destruct Hh as (? & _ & ?).
  - exact Hterm.
  - by rewrite Htake.
  - by rewrite Htake.
  - exact Hbefore.
  - rewrite <- (take_app_length prefix msg) at 2.
    rewrite <- (Nat.min_l (length prefix) (capacity - 1)) by lia.
    by rewrite <- !take_take, Hbefore.
  - intros fuel level Hlevel Hheard.
    apply w_log_delivers; [exact Hrun| |exact Hlevel|exact Hheard].
    by rewrite Htake.
Qed.

Lemma long_message_truncated_witness :
  ∃ buf w',
    format_line quiet_platform 77 (lit "%s")
      [AStr (replicate 5000 "a"%char)] (initial_world 1)
    = Returns (buf, 4095) w'
    ∧ buf !! 4095%nat = Some NUL
    ∧ last (take 4095 buf) = Some NL
    ∧ take 4094 buf = lit "2016-03-04T05:06:07,000: [77] " ++ replicate 4064 "a"%char.
Proof.
  destruct (long_message_truncated quiet_platform 77 (lit "%s")
              [AStr (replicate 5000 "a"%char)] (initial_world 1) (lit "77")
              (lit "2016-03-04T05:06:07,000: [77] ") (replicate 5000 "a"%char))
    as (buf & w' & Hrun & _ & Hterm & _ & Hlast & Hbefore & _).
  - reflexivity.
  - reflexivity.
  - apply Nat.ltb_lt. vm_compute. reflexivity.
  - vm_compute. reflexivity.
  - apply Nat.ltb_lt. vm_compute. reflexivity.
  - exists buf, w'. split_and!; [exact Hrun|exact Hterm|exact Hlast|].
    refine (eq_trans Hbefore _). vm_compute. reflexivity.
Defined.

(** A prefix longer than the array is outside the amended claims: behind a
    thread name of 4100 characters [buf + len] lies outside the array and
    [sizeof(buf) - len] wraps around, so the message is written past the end
    of [buf]. *)
Example overlong_thread_name_is_undefined :
  (w_set_thread_name quiet_platform 77 (lit "%s") [AStr (replicate 4100 "n"%char)];;
   format_line quiet_platform 77 (lit "boom") []) (initial_world 1)
  = Undefined.
Proof. vm_compute. reflexivity. Qed.

Lemma log_prefix_eq P tv name ts :
  strftime 64 (localtime_r P (tv_sec tv)) = Some ts →
  log_prefix P tv name
  = Some (ts ++ lit "," ++ fmt_decimal true 3 (to_int (tv_usec tv) `quot` 1000)
             ++ lit ": [" ++ c_str name ++ lit "] ").
Proof.
  intros Hts. destruct (log_prefix P tv name) as [prefix|] eqn:E.
  - apply log_prefix_shape in E as (ts' & Hts' & ->). congruence.
  - unfold log_prefix in E. rewrite Hts in E. cbn [mbind option_bind] in E.
    change (vformat (fmt_pointer P) (lit "%s,%03d: [%s] ")
              [AStr ts; AInt (to_int (tv_usec tv) `quot` 1000); AStr name])
      with (Some (fmt_string 0 ts ++ lit "," ++
                  (fmt_decimal true 3 (to_int (tv_usec tv) `quot` 1000) ++ lit ": [" ++
                   (fmt_string 0 name ++ lit "] ")))) in E.
    done.
Qed.

Lemma line_of_fits (prefix msg : bytes) :
  (∃ p c, prefix = p ++ [c] ∧ c ≠ NL) →
  (length (prefix ++ chomp msg ++ [NL]) ≤ capacity)%nat →
  line_of prefix msg = prefix ++ chomp msg ++ [NL].
Proof.
  intros (p & c & -> & Hc) Hfits. unfold line_of.
  rewrite !length_app in Hfits. cbn [length] in Hfits.
  destruct (decide (msg = [])) as [->|Hne].
  - rewrite app_nil_r. cbn [chomp last app]. rewrite take_ge
      by (rewrite length_app; cbn [length]; cbn [chomp last length] in Hfits; lia).
    rewrite close_line_snoc. apply Ascii.eqb_neq in Hc. rewrite Hc.
    rewrite bool_decide_eq_true_2 by (cbn [chomp last length] in Hfits; lia).
    by rewrite <- app_assoc.
  - destruct (exists_last Hne) as (m & d & ->). clear Hne.
    unfold chomp in *. rewrite last_snoc in *. rewrite length_app in *.
    cbn [length] in *. replace (length m + 1 - 1)%nat with (length m) in * by lia.
    rewrite take_app_length in *.
    destruct (Ascii.eqb d NL) eqn:Ed.
    + apply Ascii.eqb_eq in Ed as ->.
      rewrite take_ge by (rewrite !length_app; cbn [length]; lia).
      rewrite (app_assoc _ m [NL]), close_line_snoc. cbn [Ascii.eqb Bool.eqb NL].
      by rewrite <- !app_assoc.
    + rewrite length_app in Hfits. cbn [length] in Hfits.
      rewrite take_ge by (rewrite !length_app; cbn [length]; lia).
      rewrite (app_assoc _ m [d]), close_line_snoc, Ed.
      rewrite bool_decide_eq_true_2 by (rewrite !length_app; cbn [length]; lia).
      by rewrite <- !app_assoc.
Qed.

Lemma log_prefix_ends_in_space P tv name prefix :
  log_prefix P tv name = Some prefix → ∃ p c, prefix = p ++ [c] ∧ c ≠ NL.
Proof.
  intros (ts & _ & ->)%log_prefix_shape.
  exists (ts ++ lit "," ++ fmt_decimal true 3 (to_int (tv_usec tv) `quot` 1000)
          ++ lit ": [" ++ c_str name ++ lit "]"), " "%char.
  split; [|done]. by rewrite <- !app_assoc.
Qed.

(** A line of the trace that fits is its prefix, its text and one newline. *)
Lemma line_at_fits P n name prefix msg :
  log_prefix P (gettimeofday P n) name = Some prefix →
  (length (prefix ++ chomp msg ++ [NL]) ≤ capacity)%nat →
  line_at P n name msg = prefix ++ chomp msg ++ [NL].
Proof.
  intros Hprefix Hfits. rewrite (line_at_prefix _ _ _ _ _ Hprefix).
  apply line_of_fits; [by eapply log_prefix_ends_in_space|exact Hfits].
Qed.



(** * The fault handler *)

Lemma switch_miss {A} (x : Z) (cases : list (Z * A)) (otherwise : A) :
  x ∉ cases.*1 → switch x cases otherwise = otherwise.
Proof.
  induction cases as [|[label a] cases IH]; intros Hx; [done|].
  cbn [switch]. rewrite fmap_cons, not_elem_of_cons in Hx. destruct Hx as [Hne Hx].
  rewrite bool_decide_eq_false_2 by done. by apply IH.
Qed.

Lemma switch_hit {A} (x : Z) (a : A) (cases : list (Z * A)) (otherwise : A) :
  NoDup cases.*1 → (x, a) ∈ cases → switch x cases otherwise = a.
Proof.
  induction cases as [|[label b] cases IH]; intros Hnd Hin; [by apply elem_of_nil in Hin|].
  rewrite fmap_cons in Hnd. apply NoDup_cons in Hnd as [Hfresh Hnd].
  cbn [switch]. apply elem_of_cons in Hin as [[= <- <-]|Hin].
  - by rewrite bool_decide_eq_true_2.
  - rewrite bool_decide_eq_false_2; [by apply IH|].
    intros <-. apply Hfresh. apply list_elem_of_fmap. by exists (x, a).
Qed.

Lemma switch_preserves {A} (Q : A → Prop) (x : Z) (cases : list (Z * A)) (otherwise : A) :
  Q otherwise → Forall (λ c, Q c.2) cases → Q (switch x cases otherwise).
Proof.
  intros Ho. induction 1 as [|[label a] cases Ha _ IH]; [done|].
  cbn [switch]. by case_bool_decide.
Qed.

Lemma labels_prod_map {A B} (f : A → B) (cases : list (Z * A)) :
  (prod_map id f <$> cases).*1 = cases.*1.
Proof. induction cases as [|[label a] cases IH]; [done|]. cbn. by rewrite IH. Qed.

Lemma decode_signal sg sig codes code v :
  NoDup (fault_table sg).*1 →
  (sig, codes) ∈ fault_table sg →
  decode sg (Some {| si_signo := sig; si_code := code; si_value := v |})
  = switch code codes (lit "").
Proof.
  intros Hsigs Hsig. unfold decode. cbn [si_signo si_code].
  apply switch_hit.
  - by rewrite labels_prod_map.
  - apply list_elem_of_fmap. by exists (sig, codes).
Qed.

Lemma decode_hit sg sig codes code reason v :
  NoDup (fault_table sg).*1 →
  (sig, codes) ∈ fault_table sg →
  NoDup codes.*1 →
  (code, reason) ∈ codes →
  decode sg (Some {| si_signo := sig; si_code := code; si_value := v |}) = reason.
Proof.
  intros Hsigs Hsig Hcodes Hcode. rewrite (decode_signal sg sig codes) by done.
  by apply switch_hit.
Qed.

Lemma decode_miss sg si : unrecognised sg si → decode sg (Some si) = lit "".
Proof.
  unfold unrecognised, decode. generalize (fault_table sg).
  induction l as [|[sig codes] l IH]; intros Hmiss; [done|].
  rewrite fmap_cons. cbn [switch prod_map fst snd id].
  case_bool_decide as Hsig.
  - apply switch_miss, Hmiss. rewrite Hsig. apply elem_of_cons. by left.
  - apply IH. intros codes' Hin. apply Hmiss, elem_of_cons. by right.
Qed.

Lemma nul_free_reasons sg sig codes code reason :
  (sig, codes) ∈ fault_table sg → (code, reason) ∈ codes → nul_free reason.
Proof.
  unfold fault_table. rewrite elem_of_app, !elem_of_cons, elem_of_nil.
  intros [[Hc|[Hc|[Hc|[]]]]|Hc].
  4:{ destruct (SIGBUS sg); [|by apply elem_of_nil in Hc].
      apply list_elem_of_singleton in Hc. revert Hc. intros [= -> ->].
      unfold bus_reasons. rewrite !elem_of_cons, elem_of_nil.
      intros [[= _ ->]|[[= _ ->]|[]]]; by repeat constructor. }
  all: revert Hc; intros [= -> ->].
  - unfold ill_reasons. rewrite !elem_of_cons, elem_of_nil.
    intros [[= _ ->]|[[= _ ->]|[[= _ ->]|[[= _ ->]|[[= _ ->]|[[= _ ->]|[[= _ ->]|[[= _ ->]|[]]]]]]]]];
      by repeat constructor.
  - unfold fpe_reasons. rewrite !elem_of_cons, elem_of_nil.
    intros [[= _ ->]|[[= _ ->]|[[= _ ->]|[[= _ ->]|[[= _ ->]|[[= _ ->]|[[= _ ->]|[[= _ ->]|[]]]]]]]]];
      by repeat constructor.
  - unfold segv_reasons. rewrite !elem_of_cons, elem_of_nil.
    intros [[= _ ->]|[[= _ ->]|[]]]; by repeat constructor.
Qed.

Lemma nul_free_decode sg si : nul_free (decode sg si).
Proof.
  unfold decode. destruct si as [si|]; [|constructor].
  apply switch_preserves; [constructor|].
  apply Forall_fmap, Forall_forall. intros [sig codes] Hsig.
  unfold compose. cbn [prod_map fst snd].
  apply switch_preserves; [constructor|].
  apply Forall_forall. intros [code reason] Hcode. cbn [snd].
  by eapply nul_free_reasons.
Qed.

Lemma vformat_crash_message P sg signo si :
  vformat (fmt_pointer P) (crash_message)
    [AInt signo; AStr (strsignal P signo); AStr (decode sg si); APtr (fault_value si)]
  = Some (lit "Terminating due to signal " ++ fmt_decimal false 0 signo ++ lit " "
          ++ c_str (strsignal P signo) ++ lit ". " ++ decode sg si
          ++ lit " (" ++ c_str (fmt_pointer P (fault_value si)) ++ lit ")" ++ [NL]).
Proof.
  change (vformat (fmt_pointer P) crash_message
            [AInt signo; AStr (strsignal P signo); AStr (decode sg si); APtr (fault_value si)])
    with (Some (lit "Terminating due to signal " ++ (fmt_decimal false 0 signo ++ lit " "
                ++ (fmt_string 0 (strsignal P signo) ++ lit ". "
                ++ (fmt_string 0 (decode sg si) ++ lit " ("
                ++ (fmt_string 0 (fmt_pointer P (fault_value si)) ++ lit ")" ++ [NL])))))).
  rewrite (fmt_string_0 (strsignal P signo)), (fmt_string_0 (decode sg si)),
    (fmt_string_0 (fmt_pointer P (fault_value si))).
  rewrite (c_str_nul_free (decode sg si)) by apply nul_free_decode.
  reflexivity.
Qed.

(** C8. The handler decodes signal and sub-code through the fixed table of
    its nested [switch]: every pair the table lists gives the reason listed
    for it, in particular a segmentation violation with sub-code
    [SEGV_MAPERR] gives exactly "address not mapped to object"; a sub-code
    the table does not list for its signal gives the empty reason, and so
    does a missing descriptor. The handler then emits one message of the
    fatal severity: its text is made of the signal number, the platform's
    description of the signal, the decoded reason and the fault value, and
    when some sink listens at the fatal severity the line with that text
    behind the prefix of the calling thread reaches each sink whose gate
    passes, the client sink being told the error severity, before the trace
    and [abort]; the handler does not return. The case labels of each
    [switch] are distinct, as C requires. *)
Theorem fault_decoded_and_reported P sg self fuel signo si sig codes code reason unknown v :
  NoDup (fault_table sg).*1 →
  (sig, codes) ∈ fault_table sg →
  NoDup codes.*1 →
  (code, reason) ∈ codes →
  unrecognised sg unknown →
  decode sg (Some {| si_signo := sig; si_code := code; si_value := v |}) = reason
  ∧ decode sg (Some {| si_signo := SIGSEGV sg; si_code := SEGV_MAPERR sg; si_value := v |})
    = lit "address not mapped to object"
  ∧ decode sg (Some unknown) = lit ""
  ∧ decode sg None = lit ""
  ∧ vformat (fmt_pointer P) (lit "Terminating due to signal %d %s. %s (%p)" ++ [NL])
      [AInt signo; AStr (strsignal P signo); AStr (decode sg si); APtr (fault_value si)]
    = Some (lit "Terminating due to signal " ++ fmt_decimal false 0 signo ++ lit " "
            ++ c_str (strsignal P signo) ++ lit ". " ++ decode sg si
            ++ lit " (" ++ c_str (fmt_pointer P (fault_value si)) ++ lit ")" ++ [NL])
  ∧ ∀ w name prefix,
      heard P (W_LOG_FATAL P) w = true →
      thread_name self w = Some name →
      log_prefix P (gettimeofday P (clock w)) name = Some prefix →
      (length prefix ≤ 4096)%nat →
      crash_handler P sg self (S fuel) signo si w
      = (log_stack_trace P self fuel;; abort)
          (record (delivered P (W_LOG_FATAL P) (W_LOG_ERR P) w
                     (line_of prefix
                        (lit "Terminating due to signal " ++ fmt_decimal false 0 signo
                         ++ lit " " ++ c_str (strsignal P signo) ++ lit ". "
                         ++ decode sg si ++ lit " ("
                         ++ c_str (fmt_pointer P (fault_value si)) ++ lit ")" ++ [NL])))
             (named self (tick w)))
      ∧ ∀ w', crash_handler P sg self (S fuel) signo si w ≠ Returns tt w'.
Proof.
  intros Hsigs Hsig Hcodes Hcode Hunknown.
  split_and!.
  - by eapply decode_hit.
  - rewrite (decode_signal sg (SIGSEGV sg) (segv_reasons sg)); [|done|].
    + unfold segv_reasons. cbn [switch]. by rewrite bool_decide_eq_true_2.
    + unfold fault_table. apply elem_of_app. left. rewrite !elem_of_cons. auto.
  - by apply decode_miss.
  - reflexivity.
  - exact (vformat_crash_message P sg signo si).
  - intros w name prefix Hheard Hname Hprefix Hfits.
    unfold heard, gates in Hheard. cbn [fst snd] in Hheard.
    assert (Hrun := w_log_listened P self fuel (W_LOG_FATAL P) crash_message
                      [AInt signo; AStr (strsignal P signo); AStr (decode sg si);
                       APtr (fault_value si)] w name prefix _
                      Hheard Hname Hprefix Hfits (vformat_crash_message P sg signo si)).
    rewrite bool_decide_eq_true_2 in Hrun by reflexivity.
    split; [exact Hrun|].
    intros w' Hret.
    change (crash_handler P sg self (S fuel) signo si w)
      with (w_log P self (S fuel) (W_LOG_FATAL P) crash_message
              [AInt signo; AStr (strsignal P signo); AStr (decode sg si);
               APtr (fault_value si)] w) in Hret.
    rewrite Hrun in Hret. by apply never_returns in Hret.
Qed.

Lemma fault_decoded_and_reported_witness :
  decode linux_signals (Some {| si_signo := 7; si_code := 2; si_value := 4096 |})
    = lit "non-existent physical address"
  ∧ decode linux_signals (Some {| si_signo := 11; si_code := 1; si_value := 4096 |})
    = lit "address not mapped to object"
  ∧ decode linux_signals (Some {| si_signo := 11; si_code := 99; si_value := 4096 |}) = lit ""
  ∧ vformat (fmt_pointer quiet_platform)
      (lit "Terminating due to signal %d %s. %s (%p)" ++ [NL])
      [AInt 11; AStr (lit "Segmentation fault"); AStr (lit "address not mapped to object");
       APtr 4096]
    = Some (lit "Terminating due to signal 11 Segmentation fault. address not mapped to object (0x1000)"
            ++ [NL])
  ∧ crash_handler quiet_platform linux_signals 77 2 11
      (Some {| si_signo := 11; si_code := 1; si_value := 4096 |}) (initial_world 1)
    = Aborts (World 1 {[ 1%positive := lit "77" ]} {[ 77 := 1%positive ]} 2
                [ Stderr (lit "2016-03-04T05:06:07,000: [77] Terminating due to signal 11 Segmentation fault. address not mapped to object (0x1000)" ++ [NL]);
                  Stderr (lit "2016-03-04T05:06:07,001: [77] Fatal error detected at:" ++ [NL]) ]).
Proof.
  destruct (fault_decoded_and_reported quiet_platform linux_signals
              77 1 11 (Some {| si_signo := 11; si_code := 1; si_value := 4096 |})
              7 (bus_reasons linux_signals) 2 (lit "non-existent physical address")
              {| si_signo := 11; si_code := 99; si_value := 4096 |} 4096)
    as (Hbus & Hsegv & Hunknown & _ & Hmsg & Hemit).
  - apply (bool_decide_unpack _). vm_compute. exact I.
  - apply (bool_decide_unpack _). vm_compute. exact I.
  - apply (bool_decide_unpack _). vm_compute. exact I.
  - apply (bool_decide_unpack _). vm_compute. exact I.
  - intros codes Hin. apply (bool_decide_unpack _).
    unfold fault_table in Hin. cbn in Hin.
    rewrite !elem_of_cons, elem_of_nil in Hin.
    destruct Hin as [Hin|[Hin|[Hin|[Hin|[]]]]]; try discriminate Hin.
    injection Hin as ->. vm_compute. exact I.
  - split_and!; [exact Hbus|exact Hsegv|exact Hunknown| |].
    + refine (eq_trans Hmsg _). vm_compute. reflexivity.
    + destruct (Hemit (initial_world 1) (default_name 77)
                  (lit "2016-03-04T05:06:07,000: [77] ")) as [Hrun _].
      * reflexivity.
      * reflexivity.
      * vm_compute. reflexivity.
      * apply Nat.leb_le. vm_compute. reflexivity.
      * refine (eq_trans Hrun _). vm_compute. reflexivity.
Defined.

(** * The thread name registry *)

Lemma dec_inj (n m : N) : dec n = dec m → n = m.
Proof.
  unfold dec, lit. intros H%(f_equal string_of_list_ascii).
  rewrite !string_of_list_ascii_of_string in H.
  apply (f_equal NilZero.uint_of_string) in H.
  assert (Hnil : ∀ k, N.to_uint k ≠ Decimal.Nil).
  { intros [|p]; [done|]. apply DecimalPos.Unsigned.to_uint_nonnil. }
  rewrite !NilZero.usu in H by apply Hnil.
  apply DecimalN.Unsigned.to_uint_inj. congruence.
Qed.

Lemma default_name_inj (self other : Z) :
  default_name self = default_name other → self `mod` 2 ^ 32 = other `mod` 2 ^ 32.
Proof.
  intros H%dec_inj.
  pose proof (Z.mod_pos_bound self (2 ^ 32) eq_refl).
  pose proof (Z.mod_pos_bound other (2 ^ 32) eq_refl).
  lia.
Qed.

Lemma w_get_thread_name_again P self w :
  ∃ a, w_get_thread_name P self w = Returns (Some a) (named self w)
       ∧ w_get_thread_name P self (named self w) = Returns (Some a) (named self w)
       ∧ heap (named self w) !! a = thread_name self w.
Proof.
  destruct (w_get_thread_name_spec P self w) as (a & Hrun & Hslot & Hheap).
  exists a. split_and!; [done| |done].
  destruct (w_get_thread_name_spec P self (named self w)) as (a' & Hrun' & Hslot' & _).
  rewrite named_idem in Hrun', Hslot'. congruence.
Qed.

(** C9. Asking for the name of a thread twice, with nothing set in between,
    gives the same string both times: the second call finds the very block
    the first one returned and changes nothing. A thread that never set a
    name gets, on the first call, its identifier cut to 32 bits and written
    in decimal. The default names of two threads live in separate blocks,
    each derived from the thread's own identifier, the later leaves the
    earlier untouched, and they differ whenever the identifiers differ in
    their low 32 bits. *)
Theorem thread_name_stable_and_own P self other w :
  self ≠ other →
  thread_name_key w !! self = None →
  thread_name_key w !! other = None →
  (∀ w0, ∃ a0 w0',
      w_get_thread_name P self w0 = Returns (Some a0) w0'
      ∧ w_get_thread_name P self w0' = Returns (Some a0) w0'
      ∧ heap w0' !! a0 = thread_name self w0)
  ∧ ∃ a b w1 w2,
      w_get_thread_name P self w = Returns (Some a) w1
      ∧ heap w1 !! a = Some (dec (Z.to_N (self `mod` 2 ^ 32)))
      ∧ w_get_thread_name P other w1 = Returns (Some b) w2
      ∧ heap w2 !! b = Some (dec (Z.to_N (other `mod` 2 ^ 32)))
      ∧ a ≠ b
      ∧ heap w2 !! a = Some (dec (Z.to_N (self `mod` 2 ^ 32)))
      ∧ w_get_thread_name P self w2 = Returns (Some a) w2
      ∧ (self `mod` 2 ^ 32 ≠ other `mod` 2 ^ 32 →
         heap w2 !! a ≠ heap w2 !! b).
Proof.
  intros Hne Hself Hother. split.
  { intros w0. destruct (w_get_thread_name_again P self w0) as (a0 & ? & ? & ?).
    by exists a0, (named self w0). }
  destruct (w_get_thread_name_again P self w) as (a & Hrun1 & _ & Hheap1).
  set (w1 := named self w) in *.
  assert (Hslot1 : thread_name_key w1 !! self = Some a).
  { destruct (w_get_thread_name_spec P self w) as (a' & Hrun' & Hslot' & _).
    fold w1 in Hrun', Hslot'. congruence. }
  assert (Hother1 : thread_name_key w1 !! other = None).
  { unfold w1, named. rewrite Hself. cbn [thread_name_key].
    by rewrite lookup_insert_ne. }
  unfold thread_name in Hheap1. rewrite Hself in Hheap1. fold (default_name self).
  destruct (w_get_thread_name_spec P other w1) as (b & Hrun2 & Hslot2 & Hheap2).
  unfold thread_name in Hheap2. rewrite Hother1 in Hheap2.
  assert (Hw2 : named other w1 =
                World (log_level w1) (<[fresh (dom (heap w1)) := default_name other]> (heap w1))
                  (<[other := fresh (dom (heap w1))]> (thread_name_key w1))
                  (clock w1) (output w1)).
  { unfold named. by rewrite Hother1. }
  assert (Hb : b = fresh (dom (heap w1))).
  { rewrite Hw2 in Hslot2. cbn [thread_name_key] in Hslot2.
    rewrite lookup_insert_eq in Hslot2. congruence. }
  assert (Hab : a ≠ b).
  { intros ->. apply (is_fresh (dom (heap w1))). rewrite <- Hb.
    apply elem_of_dom. by rewrite Hheap1. }
  assert (Ha2 : heap (named other w1) !! a = Some (default_name self)).
  { rewrite Hw2. cbn [heap]. rewrite lookup_insert_ne by congruence. exact Hheap1. }
  exists a, b, w1, (named other w1). split_and!; try done.
  - destruct (w_get_thread_name_spec P self (named other w1)) as (a' & Hrun' & Hslot' & _).
    assert (Hset : thread_name_key (named other w1) !! self = Some a).
    { rewrite Hw2. cbn [thread_name_key]. by rewrite lookup_insert_ne. }
    rewrite (named_set self (named other w1)) in Hrun', Hslot' by (by rewrite Hset).
    congruence.
  - intros Hmod. rewrite Ha2, Hheap2. intros [= Heq]. by apply Hmod, default_name_inj.
Qed.

Lemma thread_name_stable_and_own_witness :
  ∃ a b w1 w2,
    w_get_thread_name quiet_platform 77 (initial_world 1)
      = Returns (Some a) w1
    ∧ w_get_thread_name quiet_platform 77 w1 = Returns (Some a) w1
    ∧ heap w1 !! a = Some (lit "77")
    ∧ w_get_thread_name quiet_platform 4294967301 w1
      = Returns (Some b) w2
    ∧ heap w2 !! b = Some (lit "5")
    ∧ a ≠ b.
Proof.
  destruct (thread_name_stable_and_own quiet_platform 77 4294967301
              (initial_world 1))
    as (Hagain & a & b & w1 & w2 & Hrun1 & Hname1 & Hrun2 & Hname2 & Hab & _).
  - discriminate.
  - reflexivity.
  - reflexivity.
  - exists a, b, w1, w2. split_and!; try done.
    destruct (Hagain (initial_world 1)) as (a0 & w0' & H1 & H2 & _). congruence.
Defined.

(** C10. Setting the name of a thread renders it, releases the block of the
    prior name, if there was one, while the slot still refers to it, then
    allocates the new name in the heap without the old block, installs it in
    the slot of the calling thread and returns it. Asking for the name
    afterwards returns that same block, which holds the rendered name, and
    changes nothing. *)
Theorem thread_name_replaced P self fmt ap w name :
  vformat (fmt_pointer P) fmt ap = Some name →
  (∀ old, thread_name_key w !! self = Some old → is_Some (heap w !! old)) →
  ∃ a w0 w',
    free (thread_name_key w !! self) w = Returns tt w0
    ∧ heap w0 = released self w
    ∧ thread_name_key w0 = thread_name_key w
    ∧ (name ← vasprintf P fmt ap; pthread_setspecific self name;; mret name) w0
      = Returns (Some a) w'
    ∧ w_set_thread_name P self fmt ap w = Returns (Some a) w'
    ∧ a = fresh (dom (released self w))
    ∧ heap w' = <[a := name]> (released self w)
    ∧ thread_name_key w' = <[self := a]> (thread_name_key w)
    ∧ heap w' !! a = Some name
    ∧ w_get_thread_name P self w' = Returns (Some a) w'.
Proof.
  intros Hname Hlive.
  set (w0 := World (log_level w) (released self w) (thread_name_key w) (clock w) (output w)).
  set (a := fresh (dom (released self w))).
  set (w' := World (log_level w) (<[a := name]> (released self w))
               (<[self := a]> (thread_name_key w)) (clock w) (output w)).
  assert (Hfree : free (thread_name_key w !! self) w = Returns tt w0).
  { unfold free, w0, released. destruct (thread_name_key w !! self) as [old|] eqn:E.
    - destruct (Hlive old eq_refl) as [s ->]. reflexivity.
    - by rewrite world_eta. }
  assert (Hrest : (name ← vasprintf P fmt ap; pthread_setspecific self name;; mret name) w0
                  = Returns (Some a) w').
  { rewrite bind_run. unfold vasprintf. rewrite bind_run, Hname. cbn [defined].
    rewrite ret_run, bind_run. unfold malloc_str at 1. rewrite ret_run, bind_run.
    unfold pthread_setspecific. rewrite ret_run. reflexivity. }
  exists a, w0, w'. split_and!; try done.
  - unfold w_set_thread_name. rewrite bind_run. unfold pthread_getspecific at 1.
    rewrite bind_run, Hfree. exact Hrest.
  - unfold w'. cbn [heap]. by rewrite lookup_insert_eq.
  - unfold w_get_thread_name. rewrite bind_run. unfold pthread_getspecific.
    unfold w' at 1 2. cbn [thread_name_key]. by rewrite lookup_insert_eq.
Qed.

Lemma thread_name_replaced_witness :
  ∃ a w',
    w_set_thread_name quiet_platform 77 (lit "worker-%d") [AInt 7]
      (initial_world 1) = Returns (Some a) w'
    ∧ w_get_thread_name quiet_platform 77 w' = Returns (Some a) w'
    ∧ heap w' !! a = Some (lit "worker-7").
Proof.
  destruct (thread_name_replaced quiet_platform 77 (lit "worker-%d")
              [AInt 7] (initial_world 1) (lit "worker-7"))
    as (a & w0 & w' & _ & _ & _ & _ & Hset & _ & _ & _ & Hheap & Hget).
  - reflexivity.
  - intros old Hold. discriminate Hold.
  - by exists a, w'.
Defined.

(** * Every call of the entry point *)

(** ** A logic for what logging changes *)

Lemma named_record self es w : named self (record es w) = record es (named self w).
Proof. unfold named, record. cbn. by destruct (thread_name_key w !! self). Qed.

Lemma logged_refl P self w : logged P self w w.
Proof.
  exists 0%nat, []. split_and!; [constructor|reflexivity|].
  left. by rewrite advance_0, record_nil.
Qed.

Lemma logged_step P self es w :
  Forall (proper_event P) es → (length es ≤ 2)%nat →
  logged P self w (record es (advance 1 (named self w))).
Proof. intros Hes Hlen. exists 1%nat, es. split_and!; [done|lia|by right]. Qed.

Lemma logged_trans P self w1 w2 w3 :
  logged P self w1 w2 → logged P self w2 w3 → logged P self w1 w3.
Proof.
  intros (k1 & es1 & Hes1 & Hlen1 & H1) (k2 & es2 & Hes2 & Hlen2 & H2).
  exists (k1 + k2)%nat, (es1 ++ es2).
  split_and!; [by apply Forall_app|rewrite length_app; lia|].
  destruct H1 as [-> | ->], H2 as [-> | ->];
    rewrite ?named_record, ?named_advance, ?named_idem,
      advance_record, record_record, advance_advance; auto.
Qed.

Lemma logs_ret {A} P self (a : A) (post : A → Prop) : post a → logs P self (mret a) post.
Proof. intros Ha w. rewrite ret_run. split; [apply logged_refl|done]. Qed.

Lemma logs_bind {A B} P self (m : M A) (f : A → M B) (post : A → Prop) (post' : B → Prop) :
  logs P self m post → (∀ a, post a → logs P self (f a) post') → logs P self (m ≫= f) post'.
Proof.
  intros Hm Hf w. rewrite bind_run. specialize (Hm w).
  destruct (m w) as [a w1| w1| |]; [|done..].
  destruct Hm as [Hw1 Ha]. specialize (Hf a Ha w1).
  destruct (f a w1) as [b w2| w2| |]; [|by eapply logged_trans|done..].
  destruct Hf as [Hw2 Hb]. split; [by eapply logged_trans|done].
Qed.

Lemma logs_abort {A} P self (post : A → Prop) : logs P self abort post.
Proof. intros w. apply logged_refl. Qed.

Lemma logs_for_each {A} P self (l : list A) (body : A → M unit) :
  (∀ x, logs P self (body x) (λ _, True)) → logs P self (for_each l body) (λ _, True).
Proof.
  intros Hbody. induction l as [|x l IH]; [by apply logs_ret|].
  cbn [for_each]. eapply logs_bind; [apply Hbody|]. intros _ _. exact IH.
Qed.

(** ** When rendering leaves the array *)

Lemma render_overflow P (prefix msg : bytes) :
  (4096 < length prefix)%nat → render P prefix msg = None.
Proof.
  intros Hp. unfold render.
  generalize (length_buf0 P). generalize (buf0 P). intros b0 Hb0.
  rewrite snprintf_stores by (rewrite ?Hb0; sizes).
  cbn [mbind option_bind].
  change (Z.to_nat sizeof_buf - 1)%nat with capacity.
  change (Z.to_nat 0) with 0%nat.
  set (buf1 := store_at b0 0 (take capacity prefix ++ [NUL])).
  assert (Hlen1 : length buf1 = 4096%nat).
  { unfold buf1. rewrite length_store_at; [done|].
    rewrite Hb0, length_app, length_take. sizes. }
  assert (Hcut : snprintf buf1 (printed prefix) (to_size_t (sizeof_buf - printed prefix)) msg
                 = None).
  { unfold snprintf. rewrite bool_decide_eq_false_2; [done|].
    rewrite Hlen1. unfold printed, INT_MAX. case_bool_decide as Hint; [|lia].
    unfold to_size_t, sizeof_buf.
    replace (4096 - Z.of_nat (length prefix))
      with ((4096 - Z.of_nat (length prefix) + 2 ^ 64) + (-1) * 2 ^ 64) by lia.
    rewrite Z.mod_add by lia. rewrite Z.mod_small by lia. lia. }
  by rewrite Hcut.
Qed.

Lemma proper_line_of P tv name prefix msg :
  log_prefix P tv name = Some prefix → nul_free msg → proper_line (line_of prefix msg).
Proof.
  intros Hprefix Hmsg.
  pose proof (log_prefix_nul_free _ _ _ _ Hprefix) as Hnf.
  assert (Hne : take capacity (prefix ++ msg) ≠ []).
  { pose proof (log_prefix_nonempty _ _ _ _ Hprefix) as Hp.
    intros Heq%(f_equal length). rewrite length_take, length_app in Heq.
    destruct prefix; [by apply Hp|]. sizes. }
  split_and!.
  - by apply line_of_nul_free.
  - unfold line_of. by apply close_line_cases.
  - unfold line_of.
    assert (Hlen : (length (take capacity (prefix ++ msg)) ≤ capacity)%nat)
      by (rewrite length_take; lia).
    revert Hne Hlen. generalize (take capacity (prefix ++ msg)). intros s Hne Hlen.
    destruct (exists_last Hne) as (s' & c & ->).
    rewrite close_line_snoc. rewrite length_app in Hlen. cbn [length] in Hlen.
    destruct (Ascii.eqb c NL); [|case_bool_decide];
      rewrite length_app; cbn [length]; lia.
Qed.

(** ** The formatter, whatever its input *)

Lemma format_line_cases P self fmt ap w :
  format_line P self fmt ap w = Undefined
  ∨ ∃ name prefix msg buf,
      thread_name self w = Some name
      ∧ log_prefix P (gettimeofday P (clock w)) name = Some prefix
      ∧ (length prefix ≤ 4096)%nat
      ∧ vformat (fmt_pointer P) fmt ap = Some msg
      ∧ format_line P self fmt ap w
        = Returns (buf, Z.of_nat (length (line_of prefix msg))) (named self (tick w))
      ∧ holds buf (line_of prefix msg).
Proof.
  destruct (thread_name self w) as [name|] eqn:Hname.
  2:{ left. unfold format_line. rewrite bind_run, read_clock_run, bind_run.
      destruct (w_get_thread_name_spec P self (tick w)) as (a & -> & _ & Hheap).
      rewrite bind_run. unfold deref at 1. rewrite Hheap.
      change (thread_name self (tick w)) with (thread_name self w). by rewrite Hname. }
  destruct (log_prefix P (gettimeofday P (clock w)) name) as [prefix|] eqn:Hprefix.
  2:{ left. unfold format_line. rewrite bind_run, read_clock_run, bind_run.
      destruct (w_get_thread_name_spec P self (tick w)) as (a & -> & _ & Hheap).
      rewrite bind_run. unfold deref at 1. rewrite Hheap.
      change (thread_name self (tick w)) with (thread_name self w). rewrite Hname.
      by rewrite bind_run, Hprefix. }
  destruct (vformat (fmt_pointer P) fmt ap) as [msg|] eqn:Hmsg.
  2:{ left. unfold format_line. rewrite bind_run, read_clock_run, bind_run.
      destruct (w_get_thread_name_spec P self (tick w)) as (a & -> & _ & Hheap).
      rewrite bind_run. unfold deref at 1. rewrite Hheap.
      change (thread_name self (tick w)) with (thread_name self w). rewrite Hname.
      rewrite bind_run, Hprefix. cbn [defined]. rewrite ret_run.
      by rewrite bind_run, Hmsg. }
  destruct (Nat.le_gt_cases (length prefix) 4096) as [Hfits|Hover].
  - right. destruct (format_line_spec P self fmt ap w name prefix msg) as (buf & Hrun & Hh);
      [done..|].
    by exists name, prefix, msg, buf.
  - left. unfold format_line. rewrite bind_run, read_clock_run, bind_run.
    destruct (w_get_thread_name_spec P self (tick w)) as (a & -> & _ & Hheap).
    rewrite bind_run. unfold deref at 1. rewrite Hheap.
    change (thread_name self (tick w)) with (thread_name self w). rewrite Hname.
    rewrite bind_run, Hprefix. cbn [defined]. rewrite ret_run.
    rewrite bind_run, Hmsg. cbn [defined]. rewrite ret_run.
    by rewrite bind_run, render_overflow.
Qed.

(** ** The entry point, whatever its input *)

Lemma heard_eq P level w :
  heard P level w = bool_decide (level ≤ log_level w) || w_should_log_to_clients P level.
Proof. reflexivity. Qed.

Lemma w_log_cases P self fuel level fmt ap w :
  (heard P level w = false ∧ w_log P self (S fuel) level fmt ap w = Returns tt w)
  ∨ (heard P level w = true ∧ w_log P self (S fuel) level fmt ap w = Undefined)
  ∨ (heard P level w = true
     ∧ ∃ name prefix msg,
         thread_name self w = Some name
         ∧ log_prefix P (gettimeofday P (clock w)) name = Some prefix
         ∧ (length prefix ≤ 4096)%nat
         ∧ vformat (fmt_pointer P) fmt ap = Some msg
         ∧ w_log P self (S fuel) level fmt ap w =
             if bool_decide (level = W_LOG_FATAL P) then
               (log_stack_trace P self fuel;; abort)
                 (record (delivered P level (W_LOG_ERR P) w (line_of prefix msg))
                    (named self (tick w)))
             else
               Returns tt (record (delivered P level level w (line_of prefix msg))
                             (named self (tick w)))).
Proof.
  destruct (heard P level w) eqn:Hheard.
  2:{ left. split; [done|]. rewrite heard_eq in Hheard.
      cbn [w_log]. by rewrite Hheard. }
  right. destruct (format_line_cases P self fmt ap w)
    as [Hundef | (name & prefix & msg & buf & Hname & Hprefix & Hfits & Hmsg & _ & _)].
  - left. split; [done|]. rewrite heard_eq in Hheard.
    cbn [w_log]. rewrite Hheard. cbn [negb].
    destruct (bool_decide (level = W_LOG_FATAL P)); by rewrite bind_run, Hundef.
  - right. split; [done|]. exists name, prefix, msg. split_and!; [done..|].
    rewrite heard_eq in Hheard.
    exact (w_log_listened P self fuel level fmt ap w name prefix msg
             Hheard Hname Hprefix Hfits Hmsg).
Qed.

Lemma proper_delivered P level as_level w line :
  proper_line line →
  (as_level = W_LOG_FATAL P → W_LOG_ERR P = W_LOG_FATAL P) →
  Forall (proper_event P) (delivered P level as_level w line).
Proof.
  intros Hline Hlevel. unfold delivered, sinks.
  apply Forall_app. split; case_match;
    [apply Forall_singleton|apply Forall_nil_2|apply Forall_singleton|apply Forall_nil_2];
    by split.
Qed.

Lemma length_delivered P level as_level w line :
  (length (delivered P level as_level w line) ≤ 2)%nat.
Proof.
  unfold delivered, sinks. rewrite length_app.
  destruct (gates P level w).1, (gates P level w).2; cbn [length]; lia.
Qed.

Lemma trace_then_abort_logs P self fuel :
  (∀ level fmt ap, logs P self (w_log P self fuel level fmt ap) (λ _, True)) →
  logs P self (log_stack_trace P self fuel;; abort) (λ _ : unit, True).
Proof.
  intros Hcall.
  apply (logs_bind P self (log_stack_trace P self fuel) (λ _, abort)
           (λ _, True) (λ _, True)); [|intros; apply logs_abort].
  unfold log_stack_trace, log_stack_trace_with.
  destruct (HAVE_BACKTRACE P); [|by apply logs_ret].
  apply (logs_bind P self (w_log P self fuel (W_LOG_ERR P) _ _) _
           (λ _, True) (λ _, True)); [apply Hcall|]. intros _ _.
  apply logs_for_each. intros s. apply Hcall.
Qed.

Lemma w_log_logs P self : ∀ fuel level fmt ap,
  logs P self (w_log P self fuel level fmt ap) (λ _, True).
Proof.
  induction fuel as [|fuel IH]; intros level fmt ap w; [done|].
  destruct (w_log_cases P self fuel level fmt ap w)
    as [[_ ->] | [[_ ->] | [_ (name & prefix & msg & _ & Hprefix & _ & Hmsg & ->)]]].
  - split; [apply logged_refl|done].
  - done.
  - pose proof (proper_line_of P _ _ _ msg Hprefix (nul_free_vformat _ _ _ _ Hmsg)) as Hline.
    case_bool_decide as Hfatal.
    + pose proof (trace_then_abort_logs P self fuel IH
                    (record (delivered P level (W_LOG_ERR P) w (line_of prefix msg))
                       (named self (tick w)))) as Htrace.
      assert (Hfirst : logged P self w
                (record (delivered P level (W_LOG_ERR P) w (line_of prefix msg))
                   (named self (tick w)))).
      { unfold tick. rewrite named_advance. apply logged_step.
        - by apply proper_delivered.
        - apply length_delivered. }
      destruct ((log_stack_trace P self fuel;; abort) _) as [[] w'| w'| |];
        [|by eapply logged_trans|done..].
      split; [|done]. eapply logged_trans; [exact Hfirst|apply Htrace].
    + split; [|done]. unfold tick. rewrite named_advance. apply logged_step.
      * apply proper_delivered; [done|]. intros ->. done.
      * apply length_delivered.
Qed.

Lemma w_log_logged P self fuel level fmt ap w w' :
  w_log P self fuel level fmt ap w = Returns tt w'
  ∨ w_log P self fuel level fmt ap w = Aborts w' →
  logged P self w w'.
Proof.
  intros Hrun. pose proof (w_log_logs P self fuel level fmt ap w) as Hlogs.
  destruct Hrun as [Hrun | Hrun]; rewrite Hrun in Hlogs; [apply Hlogs|exact Hlogs].
Qed.

Lemma heap_named_live self w a s :
  heap w !! a = Some s → heap (named self w) !! a = Some s.
Proof.
  intros Ha. unfold named. destruct (thread_name_key w !! self); [done|].
  cbn [heap]. rewrite lookup_insert_ne; [done|].
  intros <-. apply (is_fresh (dom (heap w))). apply elem_of_dom. by rewrite Ha.
Qed.

Lemma slot_named_other self t w :
  t ≠ self → thread_name_key (named self w) !! t = thread_name_key w !! t.
Proof.
  intros Ht. unfold named. destruct (thread_name_key w !! self); [done|].
  cbn [thread_name_key]. by rewrite lookup_insert_ne.
Qed.

Lemma logged_frame P self w w' :
  logged P self w w' →
  log_level w' = log_level w
  ∧ (clock w ≤ clock w')%nat
  ∧ (∃ es, output w' = output w ++ es
           ∧ Forall (proper_event P) es
           ∧ (length es ≤ 2 * (clock w' - clock w))%nat)
  ∧ (∀ t, t ≠ self → thread_name_key w' !! t = thread_name_key w !! t)
  ∧ (∀ a s, heap w !! a = Some s → heap w' !! a = Some s)
  ∧ thread_name self w' = thread_name self w.
Proof.
  intros (k & es & Hes & Hlen & [-> | ->]).
  - rewrite log_level_record, log_level_advance, clock_record, clock_advance,
      output_record, output_advance, thread_name_record, thread_name_advance.
    split_and!; [done|lia| |done..].
    exists es. split_and!; [done|done|lia].
  - rewrite log_level_record, log_level_advance, clock_record, clock_advance,
      output_record, output_advance, thread_name_record, thread_name_advance,
      log_level_named, clock_named, output_named, thread_name_named.
    split_and!; [done|lia| | | |done].
    + exists es. split_and!; [done|done|lia].
    + intros t Ht. exact (slot_named_other self t w Ht).
    + intros a s Ha. exact (heap_named_live self w a s Ha).
Qed.

(** * What the entry point does in every case *)

(** X1. A call of the entry point that comes back, by returning or through
    [abort], has left the configured level alone, has not turned the clock back,
    has kept every slot of another thread and every block that was live, has not
    changed the name of the calling thread, and has only appended to what the
    sinks received. This holds for every severity, format and argument list, the
    trace of a fatal call included. *)
Theorem logging_only_appends P self fuel level fmt ap w w' :
  w_log P self fuel level fmt ap w = Returns tt w'
  ∨ w_log P self fuel level fmt ap w = Aborts w' →
  log_level w' = log_level w
  ∧ (clock w ≤ clock w')%nat
  ∧ output w `prefix_of` output w'
  ∧ (∀ t, t ≠ self → thread_name_key w' !! t = thread_name_key w !! t)
  ∧ (∀ a s, heap w !! a = Some s → heap w' !! a = Some s)
  ∧ thread_name self w' = thread_name self w.
Proof.
  intros Hrun. pose proof (w_log_logged P self fuel level fmt ap w w' Hrun) as Hlogged.
  destruct (logged_frame P self w w' Hlogged) as (? & ? & (es & -> & _) & ? & ? & ?).
  split_and!; [done|done|by exists es|done..].
Qed.

Lemma logging_only_appends_witness :
  ∃ w', w_log (sample_platform 1 (-1) (λ _, true) [lit "frame_a"]) 77 2 (-1)
          (lit "boom") [] (World 1 {[ 5%positive := lit "other" ]} {[ 12 := 5%positive ]} 3 [])
        = Aborts w'
        ∧ log_level w' = 1
        ∧ thread_name_key w' !! 12 = Some 5%positive
        ∧ heap w' !! 5%positive = Some (lit "other").
Proof.
  eexists. split; [vm_compute; reflexivity|].
  match goal with
  | |- log_level ?w' = _ ∧ _ =>
    destruct (logging_only_appends (sample_platform 1 (-1) (λ _, true) [lit "frame_a"])
                77 2 (-1) (lit "boom") []
                (World 1 {[ 5%positive := lit "other" ]} {[ 12 := 5%positive ]} 3 []) w')
      as (Hlevel & _ & _ & Hslots & Hheap & _)
  end.
  - right. vm_compute. reflexivity.
  - split_and!.
    + exact Hlevel.
    + refine (eq_trans (Hslots 12 _) _); [discriminate|reflexivity].
    + apply Hheap. reflexivity.
Defined.

(** X2. Whatever a call of the entry point hands to a sink is a line: it holds
    no terminator, ends in a newline and has at most 4095 characters; and what
    the client sink is told is never the fatal severity (the two constants being
    distinct). The lines of the trace are covered. *)
Theorem sinks_receive_proper_lines P self fuel level fmt ap w w' :
  W_LOG_ERR P ≠ W_LOG_FATAL P →
  w_log P self fuel level fmt ap w = Returns tt w'
  ∨ w_log P self fuel level fmt ap w = Aborts w' →
  ∃ es, output w' = output w ++ es
        ∧ Forall (λ e, nul_free (event_line e)
                       ∧ last (event_line e) = Some NL
                       ∧ (length (event_line e) ≤ 4095)%nat
                       ∧ ∀ severity line, e = ToClients severity line →
                                          severity ≠ W_LOG_FATAL P) es.
Proof.
  intros Hne Hrun. pose proof (w_log_logged P self fuel level fmt ap w w' Hrun) as Hlogged.
  destruct (logged_frame P self w w' Hlogged) as (_ & _ & (es & -> & Hes & _) & _).
  exists es. split; [done|].
  eapply Forall_impl; [exact Hes|].
  intros e [(Hnf & Hlast & Hlen) Hsev]. split_and!; [done|done|exact Hlen|].
  intros severity line -> Hfatal. by apply Hne, Hsev.
Qed.

Lemma sinks_receive_proper_lines_witness :
  ∃ w' es,
    w_log (sample_platform 1 (-1) (λ _, true) [lit "frame_a"]) 77 2 (-1)
      (lit "boom") [] (initial_world 1) = Aborts w'
    ∧ output w' = es
    ∧ length es = 6%nat
    ∧ Forall (λ e, last (event_line e) = Some NL) es.
Proof.
  eexists. eexists. split; [vm_compute; reflexivity|].
  split; [reflexivity|]. split; [reflexivity|].
  match goal with
  | |- Forall _ (output ?w') =>
    destruct (sinks_receive_proper_lines (sample_platform 1 (-1) (λ _, true) [lit "frame_a"])
                77 2 (-1) (lit "boom") [] (initial_world 1) w') as (es & Hout & Hes)
  end.
  - discriminate.
  - right. vm_compute. reflexivity.
  - cbn [initial_world output app] in Hout. rewrite Hout.
    eapply Forall_impl; [exact Hes|]. intros e (_ & Hlast & _). exact Hlast.
Defined.

(** X3. A call that returns was either unheard, and then changed nothing, or was
    heard and not fatal, and then read the clock once, named the calling thread
    and delivered one and the same proper line to each sink whose gate passed.
    Nothing is assumed of the format, the arguments or the thread name: when
    they cannot be rendered the call does not return. *)
Theorem returning_call P self fuel level fmt ap w w' :
  w_log P self fuel level fmt ap w = Returns tt w' →
  (heard P level w = false ∧ w' = w)
  ∨ (heard P level w = true
     ∧ level ≠ W_LOG_FATAL P
     ∧ ∃ line, proper_line line
               ∧ w' = record (delivered P level level w line) (named self (tick w))).
Proof.
  destruct fuel as [|fuel]; [done|].
  destruct (w_log_cases P self fuel level fmt ap w)
    as [[Hheard ->] | [[_ ->] | [Hheard (name & prefix & msg & _ & Hprefix & _ & Hmsg & ->)]]].
  - intros [= <-]. by left.
  - done.
  - case_bool_decide as Hfatal.
    + intros Hrun. by apply never_returns in Hrun.
    + intros [= <-]. right. split_and!; [done..|].
      exists (line_of prefix msg). split; [|done].
      eapply proper_line_of; [done|by eapply nul_free_vformat].
Qed.

Lemma returning_call_witness :
  ∃ line,
    last line = Some NL
    ∧ w_log (sample_platform 1 3 (λ _, false) []) 77 1 1 (lit "hello") [] (initial_world 1)
      = Returns tt (record (delivered (sample_platform 1 3 (λ _, false) []) 1 1
                              (initial_world 1) line)
                      (named 77 (tick (initial_world 1)))).
Proof.
  destruct (returning_call (sample_platform 1 3 (λ _, false) []) 77 1 1 (lit "hello") []
              (initial_world 1)
              (World 1 {[ 1%positive := lit "77" ]} {[ 77 := 1%positive ]} 1
                 [Stderr (lit "2016-03-04T05:06:07,000: [77] hello" ++ [NL])]))
    as [[Hheard _] | (_ & _ & line & (_ & Hlast & _) & Hw')].
  - vm_compute. reflexivity.
  - discriminate Hheard.
  - exists line. split; [exact Hlast|].
    refine (eq_trans _ (f_equal (Returns tt) Hw')). vm_compute. reflexivity.
Defined.



(** ** The depth of the recursion *)

Lemma w_log_plain_fuel P self n m level fmt ap w :
  level ≠ W_LOG_FATAL P →
  w_log P self (S n) level fmt ap w = w_log P self (S m) level fmt ap w.
Proof.
  intros Hplain. cbn [w_log].
  rewrite (bool_decide_eq_false_2 (level = W_LOG_FATAL P)) by exact Hplain.
  reflexivity.
Qed.

Lemma w_log_plain_ends P self fuel level fmt ap w :
  level ≠ W_LOG_FATAL P → w_log P self (S fuel) level fmt ap w ≠ OutOfFuel.
Proof.
  intros Hplain.
  destruct (w_log_cases P self fuel level fmt ap w)
    as [[_ ->] | [[_ ->] | [_ (name & prefix & msg & _ & _ & _ & _ & ->)]]]; [done..|].
  by rewrite bool_decide_eq_false_2.
Qed.

Lemma for_each_ext {A} (l : list A) (f g : A → M unit) (w : world) :
  (∀ x w, f x w = g x w) → for_each l f w = for_each l g w.
Proof.
  intros Hfg. revert w. induction l as [|x l IH]; intros w; [done|].
  cbn [for_each]. rewrite !bind_run, Hfg. destruct (g x w); [apply IH|done..].
Qed.

Lemma for_each_ends {A} (l : list A) (body : A → M unit) (w : world) :
  (∀ x w, body x w ≠ OutOfFuel) → for_each l body w ≠ OutOfFuel.
Proof.
  intros Hbody. revert w. induction l as [|x l IH]; intros w; [done|].
  cbn [for_each]. rewrite bind_run. specialize (Hbody x w).
  destruct (body x w); [apply IH|done..].
Qed.

Lemma log_stack_trace_fuel P self n m w :
  W_LOG_ERR P ≠ W_LOG_FATAL P →
  log_stack_trace P self (S n) w = log_stack_trace P self (S m) w.
Proof.
  intros Hne. unfold log_stack_trace, log_stack_trace_with.
  destruct (HAVE_BACKTRACE P); [|done].
  rewrite !bind_run, (w_log_plain_fuel P self n m) by exact Hne.
  destruct (w_log P self (S m) _ _ _ w); [|done..].
  apply for_each_ext. intros s w1. by apply w_log_plain_fuel.
Qed.

Lemma log_stack_trace_ends P self fuel w :
  W_LOG_ERR P ≠ W_LOG_FATAL P → log_stack_trace P self (S fuel) w ≠ OutOfFuel.
Proof.
  intros Hne. unfold log_stack_trace, log_stack_trace_with.
  destruct (HAVE_BACKTRACE P); [|done].
  rewrite bind_run.
  pose proof (w_log_plain_ends P self fuel (W_LOG_ERR P)
                (lit "Fatal error detected at:" ++ [NL]) [] w Hne) as Hhead.
  destruct (w_log P self (S fuel) _ _ _ w); [|done..].
  apply for_each_ends. intros s w1. by apply w_log_plain_ends.
Qed.

(** X5. The entry point and the trace call each other, yet the recursion is two
    calls deep at most when the error and the fatal severity differ: the trace
    logs at error severity, which is not fatal. So any bound of two or more
    gives the outcome of the bound two, and that outcome is a return, an [abort]
    or undefined behaviour, never an exhausted bound. *)
Theorem recursion_two_deep P self fuel level fmt ap w :
  W_LOG_ERR P ≠ W_LOG_FATAL P →
  w_log P self (S (S fuel)) level fmt ap w = w_log P self 2 level fmt ap w
  ∧ w_log P self 2 level fmt ap w ≠ OutOfFuel.
Proof.
  intros Hne.
  assert (Hends : ∀ n, w_log P self (S (S n)) level fmt ap w ≠ OutOfFuel).
  { intros n. destruct (w_log_cases P self (S n) level fmt ap w)
      as [[_ ->] | [[_ ->] | [_ (name & prefix & msg & _ & _ & _ & _ & ->)]]]; [done..|].
    case_bool_decide; [|done]. rewrite bind_run.
    pose proof (log_stack_trace_ends P self n
                  (record (delivered P level (W_LOG_ERR P) w (line_of prefix msg))
                     (named self (tick w))) Hne) as Htrace.
    by destruct (log_stack_trace P self (S n) _). }
  split; [|apply Hends].
  destruct (decide (level = W_LOG_FATAL P)) as [Hfatal|Hplain];
    [|by apply w_log_plain_fuel].
  cbn [w_log]. destruct (negb _); [done|].
  destruct (bool_decide (level = W_LOG_FATAL P)); [|done].
  rewrite !bind_run. destruct (format_line P self fmt ap w) as [[buf len] w1| | |]; [|done..].
  assert (Htrace : ∀ w2, (log_stack_trace_with P (w_log P self (S fuel));; abort) w2
                         = (log_stack_trace_with P (w_log P self 1);; abort) w2 :> outcome unit).
  { intros w2. rewrite !bind_run.
    change (log_stack_trace_with P (w_log P self (S fuel)) w2)
      with (log_stack_trace P self (S fuel) w2).
    change (log_stack_trace_with P (w_log P self 1) w2)
      with (log_stack_trace P self 1 w2).
    by rewrite (log_stack_trace_fuel P self fuel 0 w2 Hne). }
  destruct (bool_decide (level ≤ log_level w)), (w_should_log_to_clients P level);
    rewrite ?bind_run, ?ret_run; unfold emit; rewrite ?bind_run, ?ret_run;
    apply Htrace.
Qed.

Lemma recursion_two_deep_witness :
  w_log (sample_platform 1 (-1) (λ _, true) [lit "frame_a"]) 77 9 (-1) (lit "boom") []
    (initial_world 1)
  = w_log (sample_platform 1 (-1) (λ _, true) [lit "frame_a"]) 77 2 (-1) (lit "boom") []
      (initial_world 1).
Proof.
  apply (recursion_two_deep (sample_platform 1 (-1) (λ _, true) [lit "frame_a"]) 77 7 (-1)
           (lit "boom") [] (initial_world 1)).
  discriminate.
Defined.

(** ** How much one call can log *)

Lemma w_log_plain_clock P self fuel level fmt ap w :
  level ≠ W_LOG_FATAL P →
  match w_log P self fuel level fmt ap w with
  | Returns _ w' => (clock w' ≤ clock w + 1)%nat
  | Aborts _ => False
  | Undefined | OutOfFuel => True
  end.
Proof.
  intros Hplain. destruct fuel as [|fuel]; [done|].
  destruct (w_log_cases P self fuel level fmt ap w)
    as [[_ ->] | [[_ ->] | [_ (name & prefix & msg & _ & _ & _ & _ & ->)]]].
  - lia.
  - done.
  - rewrite bool_decide_eq_false_2 by done.
    rewrite clock_record, clock_named. unfold tick. rewrite clock_advance. lia.
Qed.

Lemma for_each_clock {A} (l : list A) (body : A → M unit) :
  (∀ x w, match body x w with
          | Returns _ w' => (clock w' ≤ clock w + 1)%nat
          | Aborts _ => False
          | Undefined | OutOfFuel => True
          end) →
  ∀ w, match for_each l body w with
       | Returns _ w' => (clock w' ≤ clock w + length l)%nat
       | Aborts _ => False
       | Undefined | OutOfFuel => True
       end.
Proof.
  intros Hbody. induction l as [|x l IH]; intros w.
  - cbn [for_each length]. rewrite ret_run. lia.
  - cbn [for_each length]. rewrite bind_run. specialize (Hbody x w).
    destruct (body x w) as [[] w1| | |]; [|done..].
    specialize (IH w1). destruct (for_each l body w1); [lia|done..].
Qed.

Lemma log_stack_trace_clock P self fuel w :
  W_LOG_ERR P ≠ W_LOG_FATAL P →
  match log_stack_trace P self fuel w with
  | Returns _ w' => (clock w' ≤ clock w + 25)%nat
  | Aborts _ => False
  | Undefined | OutOfFuel => True
  end.
Proof.
  intros Hne. unfold log_stack_trace, log_stack_trace_with.
  destruct (HAVE_BACKTRACE P); [|rewrite ret_run; lia].
  rewrite bind_run.
  pose proof (w_log_plain_clock P self fuel (W_LOG_ERR P)
                (lit "Fatal error detected at:" ++ [NL]) [] w Hne) as Hhead.
  destruct (w_log P self fuel _ _ _ w) as [[] w1| | |]; [|done..].
  pose proof (for_each_clock (take 24 (call_stack P))
                (λ s, w_log P self fuel (W_LOG_ERR P) (lit "%s" ++ [NL]) [AStr s])
                (λ s w0, w_log_plain_clock P self fuel (W_LOG_ERR P) _ _ w0 Hne) w1) as Hframes.
  destruct (for_each _ _ w1); [|done..].
  rewrite length_take in Hframes. lia.
Qed.

(** X6. One call logs a bounded amount, whatever is on the call stack: the clock
    is read at most 26 times (for the line of the call, the header of the trace
    and at most 24 frames), and each reading is followed by at most two events,
    one for each sink. A call that is not fatal reads the clock at most once. *)
Theorem call_is_bounded P self fuel level fmt ap w w' :
  W_LOG_ERR P ≠ W_LOG_FATAL P →
  w_log P self fuel level fmt ap w = Returns tt w'
  ∨ w_log P self fuel level fmt ap w = Aborts w' →
  (clock w' ≤ clock w + 26)%nat
  ∧ (level ≠ W_LOG_FATAL P → clock w' ≤ clock w + 1)%nat
  ∧ (length (output w') ≤ length (output w) + 2 * (clock w' - clock w))%nat.
Proof.
  intros Hne Hrun.
  destruct (logged_frame P self w w' (w_log_logged P self fuel level fmt ap w w' Hrun))
    as (_ & _ & (es & Hout & _ & Hlen) & _).
  assert (Hplain : level ≠ W_LOG_FATAL P → (clock w' ≤ clock w + 1)%nat).
  { intros Hplain. pose proof (w_log_plain_clock P self fuel level fmt ap w Hplain) as Hclock.
    destruct Hrun as [Hrun | Hrun]; rewrite Hrun in Hclock; [exact Hclock|done]. }
  split_and!; [|exact Hplain|rewrite Hout, length_app; lia].
  destruct (decide (level = W_LOG_FATAL P)) as [->|Hplain']; [|specialize (Hplain Hplain'); lia].
  destruct fuel as [|fuel]; [by destruct Hrun|].
  destruct (w_log_cases P self fuel (W_LOG_FATAL P) fmt ap w)
    as [[_ Heq] | [[_ Heq] | [_ (name & prefix & msg & _ & _ & _ & _ & Heq)]]];
    rewrite Heq in Hrun.
  - destruct Hrun as [[= <-] | [=]]. lia.
  - by destruct Hrun.
  - rewrite bool_decide_eq_true_2 in Hrun by reflexivity. rewrite bind_run in Hrun.
    pose proof (log_stack_trace_clock P self fuel
                  (record (delivered P (W_LOG_FATAL P) (W_LOG_ERR P) w (line_of prefix msg))
                     (named self (tick w))) Hne) as Htrace.
    destruct (log_stack_trace P self fuel _) as [[] w3| | |]; [|by destruct Hrun..].
    destruct Hrun as [[=] | [= <-]].
    rewrite clock_record, clock_named in Htrace. unfold tick in Htrace.
    rewrite clock_advance in Htrace. lia.
Qed.

Lemma call_is_bounded_witness :
  ∃ w', w_log (sample_platform 1 (-1) (λ _, true) (replicate 30 (lit "frame"))) 77 2 (-1)
          (lit "boom") [] (initial_world 1) = Aborts w'
        ∧ (clock w' ≤ 26)%nat
        ∧ (length (output w') ≤ 52)%nat.
Proof.
  eexists. split; [vm_compute; reflexivity|].
  match goal with
  | |- (clock ?w' ≤ _)%nat ∧ _ =>
    destruct (call_is_bounded (sample_platform 1 (-1) (λ _, true) (replicate 30 (lit "frame")))
                77 2 (-1) (lit "boom") [] (initial_world 1) w') as (Hclock & _ & Hout)
  end.
  - discriminate.
  - right. vm_compute. reflexivity.
  - split; [exact Hclock|]. apply Nat.leb_le. vm_compute. reflexivity.
Defined.

(** X7. Were the error and the fatal severity the same number, the trace of a
    heard fatal call would itself be fatal: its header would start a trace of
    its own before any frame is logged, and so on without end. However large the
    bound on the depth, it is exhausted. *)
Theorem equal_severities_recurse P self name : ∀ fuel fmt ap msg w,
  W_LOG_ERR P = W_LOG_FATAL P →
  HAVE_BACKTRACE P = true →
  heard P (W_LOG_FATAL P) w = true →
  thread_name self w = Some name →
  vformat (fmt_pointer P) fmt ap = Some msg →
  (∀ k, (k < fuel)%nat → prefix_fits P (k + clock w) name) →
  w_log P self fuel (W_LOG_FATAL P) fmt ap w = OutOfFuel.
Proof.
  induction fuel as [|fuel IH]; intros fmt ap msg w Heq Hbt Hheard Hname Hmsg Hfits; [done|].
  destruct (Hfits 0%nat) as (prefix & Hprefix & Hlen); [lia|].
  rewrite heard_eq in Hheard.
  rewrite (w_log_listened P self fuel _ fmt ap w name prefix msg Hheard Hname Hprefix Hlen Hmsg).
  rewrite bool_decide_eq_true_2 by reflexivity.
  rewrite bind_run. unfold log_stack_trace, log_stack_trace_with.
  rewrite Hbt, bind_run, Heq.
  rewrite (IH _ [] header).
  - reflexivity.
  - exact Heq.
  - exact Hbt.
  - rewrite heard_eq, log_level_record, log_level_named. exact Hheard.
  - rewrite thread_name_record, thread_name_named. exact Hname.
  - apply vformat_header.
  - intros k Hk. rewrite clock_record, clock_named. unfold tick. rewrite clock_advance.
    replace (k + (1 + clock w))%nat with (S k + clock w)%nat by lia.
    apply Hfits. lia.
Qed.

Lemma equal_severities_recurse_witness :
  w_log (sample_platform 1 1 (λ _, false) [lit "frame_a"]) 77 3 1 (lit "boom") []
    (initial_world 1) = OutOfFuel.
Proof.
  apply (equal_severities_recurse (sample_platform 1 1 (λ _, false) [lit "frame_a"]) 77
           (default_name 77) 3 (lit "boom") [] (lit "boom") (initial_world 1)).
  - reflexivity.
  - reflexivity.
  - reflexivity.
  - reflexivity.
  - reflexivity.
  - intros k Hk.
    destruct k as [|[|[|k]]]; [| | |lia];
      (eexists; split; [reflexivity|apply Nat.leb_le; vm_compute; reflexivity]).
Defined.

(** ** A prefix that does not fit *)

(** X8. The message is rendered behind the prefix, at [buf + len] with
    [sizeof(buf) - len] characters of room. With a thread name, a readable clock
    and a valid format, the formatter is defined exactly when the prefix has at
    most 4096 characters: a longer one (a thread name of some 4070 characters)
    puts the destination outside the array, and every heard call on that thread
    is then undefined. *)
Theorem prefix_has_to_fit P self fmt ap w name prefix msg :
  thread_name self w = Some name →
  log_prefix P (gettimeofday P (clock w)) name = Some prefix →
  vformat (fmt_pointer P) fmt ap = Some msg →
  (format_line P self fmt ap w ≠ Undefined ↔ (length prefix ≤ 4096)%nat)
  ∧ ((4096 < length prefix)%nat →
     ∀ fuel level, heard P level w = true →
                   w_log P self (S fuel) level fmt ap w = Undefined).
Proof.
  intros Hname Hprefix Hmsg.
  assert (Hover : (4096 < length prefix)%nat → format_line P self fmt ap w = Undefined).
  { intros Hlong.
    destruct (format_line_cases P self fmt ap w)
      as [Hundef | (name' & prefix' & msg' & buf & Hname' & Hprefix' & Hfits & _)]; [done|].
    rewrite Hname in Hname'. injection Hname' as <-.
    rewrite Hprefix in Hprefix'. injection Hprefix' as <-. lia. }
  split.
  - split.
    + intros Hdef. destruct (Nat.le_gt_cases (length prefix) 4096) as [|Hlong]; [done|].
      by destruct Hdef, Hover.
    + intros Hfits.
      destruct (format_line_spec P self fmt ap w name prefix msg) as (buf & -> & _);
        [done..|]. discriminate.
  - intros Hlong fuel level Hheard.
    rewrite heard_eq in Hheard. cbn [w_log]. rewrite Hheard. cbn [negb].
    destruct (bool_decide (level = W_LOG_FATAL P)); by rewrite bind_run, Hover.
Qed.

Lemma prefix_has_to_fit_witness :
  w_log quiet_platform 77 1 1 (lit "boom") []
    (World 1 {[ 1%positive := replicate 4100 "n"%char ]} {[ 77 := 1%positive ]} 0 [])
  = Undefined.
Proof.
  destruct (prefix_has_to_fit quiet_platform 77 (lit "boom") []
              (World 1 {[ 1%positive := replicate 4100 "n"%char ]} {[ 77 := 1%positive ]} 0 [])
              (replicate 4100 "n"%char)
              (lit "2016-03-04T05:06:07,000: [" ++ replicate 4100 "n"%char ++ lit "] ")
              (lit "boom")) as [_ Hundef].
  - reflexivity.
  - vm_compute. reflexivity.
  - reflexivity.
  - apply Hundef.
    + apply Nat.ltb_lt. vm_compute. reflexivity.
    + reflexivity.
Defined.

(** ** The trace on its own *)





(** ** The length of the prefix *)

Lemma length_milliseconds (ms : Z) :
  0 ≤ ms < 1000 → length (fmt_decimal true 3 ms) = 3%nat.
Proof.
  intros Hms.
  assert (Hall : forallb (λ n, length (fmt_decimal true 3 (Z.of_nat n)) =? 3)%nat
                   (seq 0 1000) = true) by (vm_compute; reflexivity).
  rewrite forallb_forall in Hall.
  specialize (Hall (Z.to_nat ms)). rewrite Z2Nat.id in Hall by lia.
  apply Nat.eqb_eq, Hall, in_seq. lia.
Qed.

(** X10. With the microseconds of the clock in their range, the milliseconds
    take exactly three digits, so the prefix is nine characters longer than the
    timestamp and the thread name together. The formatter is therefore defined,
    for a valid format, exactly when timestamp and thread name have at most 4087
    characters together. *)
Theorem prefix_length P self fmt ap w name ts msg :
  strftime 64 (localtime_r P (tv_sec (gettimeofday P (clock w)))) = Some ts →
  0 ≤ tv_usec (gettimeofday P (clock w)) < 1000000 →
  thread_name self w = Some name →
  vformat (fmt_pointer P) fmt ap = Some msg →
  ∃ prefix,
    log_prefix P (gettimeofday P (clock w)) name = Some prefix
    ∧ length prefix = (length ts + length (c_str name) + 9)%nat
    ∧ (format_line P self fmt ap w ≠ Undefined
       ↔ (length ts + length (c_str name) ≤ 4087)%nat).
Proof.
  intros Hts Husec Hname Hmsg.
  pose proof (log_prefix_eq P (gettimeofday P (clock w)) name ts Hts) as Hprefix.
  eexists. split; [exact Hprefix|].
  assert (Hlen : length (ts ++ lit "," ++ fmt_decimal true 3
                             (to_int (tv_usec (gettimeofday P (clock w))) `quot` 1000)
                           ++ lit ": [" ++ c_str name ++ lit "] ")
                 = (length ts + length (c_str name) + 9)%nat).
  { rewrite !length_app, length_milliseconds.
    - cbn [lit list_ascii_of_string length]. lia.
    - unfold to_int. change (2 ^ 31) with 2147483648. change (2 ^ 32) with 4294967296.
      rewrite Z.mod_small by lia.
      replace (tv_usec (gettimeofday P (clock w)) + 2147483648 - 2147483648)
        with (tv_usec (gettimeofday P (clock w))) by lia.
      split; [apply Z.quot_pos; lia|apply Z.quot_lt_upper_bound; lia]. }
  split; [exact Hlen|].
  split.
  - intros Hdef.
    destruct (format_line_cases P self fmt ap w)
      as [Hundef | (name' & prefix' & msg' & buf & Hname' & Hprefix' & Hfits & _)]; [done|].
    rewrite Hname in Hname'. injection Hname' as <-.
    assert (Heq : Some prefix' = Some (ts ++ lit "," ++ fmt_decimal true 3
                             (to_int (tv_usec (gettimeofday P (clock w))) `quot` 1000)
                           ++ lit ": [" ++ c_str name ++ lit "] "))
      by (by rewrite <- Hprefix, <- Hprefix').
    apply (inj Some) in Heq. rewrite Heq, Hlen in Hfits. lia.
  - intros Hfits.
    destruct (format_line_spec P self fmt ap w name _ msg Hname Hprefix) as (buf & -> & _);
      [rewrite Hlen; lia|done|discriminate].
Qed.

Lemma prefix_length_witness :
  ∃ prefix,
    log_prefix quiet_platform (gettimeofday quiet_platform 0) (lit "77") = Some prefix
    ∧ length prefix = 30%nat.
Proof.
  destruct (prefix_length quiet_platform 77 (lit "boom") [] (initial_world 1) (lit "77")
              (lit "2016-03-04T05:06:07") (lit "boom")) as (prefix & Hprefix & Hlen & _).
  - vm_compute. reflexivity.
  - simpl. lia.
  - reflexivity.
  - reflexivity.
  - exists prefix. split; [exact Hprefix|]. rewrite Hlen. reflexivity.
Defined.

(** ** The character before the terminator *)

Lemma length_fmt_decimal (zero : bool) (width : nat) (z : Z) :
  (width ≤ length (fmt_decimal zero width z))%nat.
Proof.
  unfold fmt_decimal. destruct zero;
    rewrite !length_app, length_replicate; lia.
Qed.

(** X11. Line 166 reads the character before the terminator, which for an empty
    string would lie before the array. That cannot happen: whatever the clock,
    the time zone and the thread name, the prefix has at least nine characters
    (the comma, three digits of milliseconds, the brackets, the colon and two
    spaces), and so has every line. *)
Theorem line_is_never_empty P tv name prefix msg rest :
  log_prefix P tv name = Some prefix →
  terminate (NUL :: rest) = None
  ∧ (9 ≤ length prefix)%nat
  ∧ (9 ≤ length (line_of prefix msg))%nat.
Proof.
  intros Hprefix. split; [reflexivity|].
  assert (Hlen : (9 ≤ length prefix)%nat).
  { destruct (log_prefix_shape _ _ _ _ Hprefix) as (ts & _ & ->).
    rewrite !length_app.
    pose proof (length_fmt_decimal true 3 (to_int (tv_usec tv) `quot` 1000)).
    cbn [lit list_ascii_of_string length]. lia. }
  split; [exact Hlen|].
  unfold line_of.
  assert (Hbody : (9 ≤ length (take capacity (prefix ++ msg)))%nat).
  { rewrite length_take, length_app. unfold capacity. lia. }
  revert Hbody. generalize (take capacity (prefix ++ msg)). intros s Hs.
  destruct (decide (s = [])) as [->|Hne]; [cbn [length] in Hs; lia|].
  destruct (exists_last Hne) as (s' & c & ->).
  rewrite close_line_snoc. rewrite length_app in Hs. cbn [length] in Hs.
  destruct (Ascii.eqb c NL); [|case_bool_decide];
    rewrite length_app; cbn [length]; lia.
Qed.

Lemma line_is_never_empty_witness :
  (9 ≤ length (lit "2016-03-04T05:06:07,000: [] "))%nat.
Proof.
  apply (line_is_never_empty quiet_platform {| tv_sec := 0; tv_usec := 0 |} [NUL]
           (lit "2016-03-04T05:06:07,000: [] ") [] []).
  vm_compute. reflexivity.
Defined.

(** * The registry as a whole *)

Lemma registry_ok_same w w' :
  heap w' = heap w → thread_name_key w' = thread_name_key w →
  registry_ok w → registry_ok w'.
Proof.
  intros Hheap Hslots [Hlive Hapart Howned].
  split.
  - intros t a. rewrite Hheap, Hslots. apply Hlive.
  - intros t1 t2 a. rewrite Hslots. apply Hapart.
  - intros a. rewrite Hheap, Hslots. apply Howned.
Qed.

Lemma registry_ok_named self w : registry_ok w → registry_ok (named self w).
Proof.
  intros [Hlive Hapart Howned]. unfold named.
  destruct (thread_name_key w !! self) as [a0|] eqn:Hself; [by split|].
  set (a := fresh (dom (heap w))).
  assert (Hfresh : heap w !! a = None).
  { apply not_elem_of_dom. apply is_fresh. }
  assert (Hunused : ∀ t, thread_name_key w !! t ≠ Some a).
  { intros t Ht. destruct (Hlive t a Ht) as [s Hs]. congruence. }
  split; cbn [heap thread_name_key].
  - intros t b. destruct (decide (t = self)) as [->|Ht].
    + rewrite lookup_insert_eq. intros [= <-]. by rewrite lookup_insert_eq.
    + rewrite lookup_insert_ne by done. intros Hb.
      destruct (Hlive t b Hb) as [s Hs].
      rewrite lookup_insert_ne; [by rewrite Hs|]. intros <-. congruence.
  - intros t1 t2 b.
    destruct (decide (t1 = self)) as [->|H1], (decide (t2 = self)) as [->|H2];
      rewrite ?lookup_insert_eq, ?(lookup_insert_ne _ self) by done.
    + done.
    + intros [= <-] H. by destruct (Hunused t2).
    + intros H [= <-]. by destruct (Hunused t1).
    + apply Hapart.
  - intros b. destruct (decide (b = a)) as [->|Hb].
    + intros _. exists self. by rewrite lookup_insert_eq.
    + rewrite lookup_insert_ne by done. intros (t & Ht)%Howned.
      exists t. rewrite lookup_insert_ne; [done|]. intros <-. congruence.
Qed.

Lemma thread_name_named_other self t w :
  registry_ok w → thread_name t (named self w) = thread_name t w.
Proof.
  intros Hok. destruct (decide (t = self)) as [->|Ht]; [apply thread_name_named|].
  unfold thread_name. rewrite (slot_named_other self t w Ht).
  destruct (thread_name_key w !! t) as [a|] eqn:Hslot; [|done].
  destruct (slots_live w Hok t a Hslot) as [s Hs].
  by rewrite Hs, (heap_named_live self w a s Hs).
Qed.

Lemma w_set_thread_name_run P self fmt ap w name :
  vformat (fmt_pointer P) fmt ap = Some name →
  (∀ old, thread_name_key w !! self = Some old → is_Some (heap w !! old)) →
  w_set_thread_name P self fmt ap w
  = Returns (Some (fresh (dom (released self w))))
      (World (log_level w) (<[fresh (dom (released self w)) := name]> (released self w))
         (<[self := fresh (dom (released self w))]> (thread_name_key w))
         (clock w) (output w)).
Proof.
  intros Hname Hlive.
  assert (Hfree : free (thread_name_key w !! self) w
                  = Returns tt (World (log_level w) (released self w) (thread_name_key w)
                                  (clock w) (output w))).
  { unfold free, released. destruct (thread_name_key w !! self) as [old|] eqn:E.
    - destruct (Hlive old eq_refl) as [s ->]. reflexivity.
    - by rewrite world_eta. }
  unfold w_set_thread_name. rewrite bind_run. unfold pthread_getspecific at 1.
  rewrite bind_run, Hfree.
  rewrite bind_run. unfold vasprintf. rewrite bind_run, Hname. cbn [defined].
  rewrite ret_run, bind_run. unfold malloc_str at 1. rewrite ret_run, bind_run.
  unfold pthread_setspecific. rewrite ret_run. reflexivity.
Qed.

(** X12. Setting a name keeps the registry consistent: afterwards every slot
    still refers to a live block, no block is shared and none is left without an
    owner, so the block of the prior name has not leaked. The calling thread has
    the rendered name, and every other thread the name it had. *)
Theorem set_name_keeps_registry P self fmt ap w name :
  registry_ok w →
  vformat (fmt_pointer P) fmt ap = Some name →
  ∃ a w',
    w_set_thread_name P self fmt ap w = Returns (Some a) w'
    ∧ registry_ok w'
    ∧ thread_name_key w' !! self = Some a
    ∧ thread_name self w' = Some name
    ∧ (∀ t, t ≠ self → thread_name t w' = thread_name t w)
    ∧ log_level w' = log_level w ∧ clock w' = clock w ∧ output w' = output w.
Proof.
  intros [Hlive Hapart Howned] Hname.
  rewrite (w_set_thread_name_run P self fmt ap w name Hname (Hlive self)).
  set (a := fresh (dom (released self w))).
  assert (Hfresh : released self w !! a = None).
  { apply not_elem_of_dom. apply is_fresh. }
  assert (Hkept : ∀ t b, t ≠ self → thread_name_key w !! t = Some b →
                         released self w !! b = heap w !! b ∧ b ≠ a).
  { intros t b Ht Hb.
    assert (Hrel : released self w !! b = heap w !! b).
    { unfold released. destruct (thread_name_key w !! self) as [old|] eqn:Hold; [|done].
      rewrite lookup_delete_ne; [done|]. intros <-. by destruct Ht, (Hapart t self old). }
    split; [done|]. intros ->. destruct (Hlive t a Hb) as [s Hs]. congruence. }
  assert (Hsub : ∀ b, is_Some (released self w !! b) →
                      is_Some (heap w !! b) ∧ thread_name_key w !! self ≠ Some b).
  { intros b. unfold released. destruct (thread_name_key w !! self) as [old|] eqn:Hold.
    - destruct (decide (b = old)) as [->|Hb].
      + rewrite lookup_delete_eq. by intros [? ?].
      + rewrite lookup_delete_ne by done. intros H. split; [done|congruence].
    - done. }
  eexists a, _. split; [reflexivity|]. cbn [heap thread_name_key log_level clock output].
  split_and!; [|by rewrite lookup_insert_eq| | |done..].
  - split; cbn [heap thread_name_key].
    + intros t b. destruct (decide (t = self)) as [->|Ht].
      * rewrite lookup_insert_eq. intros [= <-]. by rewrite lookup_insert_eq.
      * rewrite lookup_insert_ne by done. intros Hb.
        destruct (Hkept t b Ht Hb) as [Hrel Hba].
        rewrite lookup_insert_ne by done. rewrite Hrel. by eapply Hlive.
    + intros t1 t2 b.
      destruct (decide (t1 = self)) as [->|H1], (decide (t2 = self)) as [->|H2];
        rewrite ?lookup_insert_eq, ?(lookup_insert_ne _ self) by done.
      * done.
      * intros [= <-] H. by destruct (Hkept t2 a H2 H).
      * intros H [= <-]. by destruct (Hkept t1 a H1 H).
      * apply Hapart.
    + intros b. destruct (decide (b = a)) as [->|Hb].
      * intros _. exists self. by rewrite lookup_insert_eq.
      * rewrite lookup_insert_ne by done. intros [Hb' Hnot]%Hsub.
        destruct (Howned b Hb') as (t & Ht). exists t.
        rewrite lookup_insert_ne; [done|]. intros <-. congruence.
  - unfold thread_name. cbn [heap thread_name_key]. by rewrite !lookup_insert_eq.
  - intros t Ht. unfold thread_name. cbn [heap thread_name_key].
    rewrite lookup_insert_ne by done.
    destruct (thread_name_key w !! t) as [b|] eqn:Hb; [|done].
    destruct (Hkept t b Ht Hb) as [Hrel Hba].
    by rewrite lookup_insert_ne, Hrel.
Qed.

Lemma registry_ok_initial level : registry_ok (initial_world level).
Proof.
  split; cbn [initial_world heap thread_name_key].
  - intros t a Ha. by rewrite lookup_empty in Ha.
  - intros t1 t2 a Ha. by rewrite lookup_empty in Ha.
  - intros a [s Hs]. by rewrite lookup_empty in Hs.
Qed.

Lemma set_name_keeps_registry_witness :
  ∃ a w',
    w_set_thread_name quiet_platform 77 (lit "worker-%d") [AInt 7] (initial_world 1)
    = Returns (Some a) w'
    ∧ registry_ok w'
    ∧ thread_name 77 w' = Some (lit "worker-7").
Proof.
  destruct (set_name_keeps_registry quiet_platform 77 (lit "worker-%d") [AInt 7]
              (initial_world 1) (lit "worker-7"))
    as (a & w' & Hrun & Hok & _ & Hname & _).
  - apply registry_ok_initial.
  - reflexivity.
  - by exists a, w'.
Defined.

(** X13. Asking for a name keeps the registry consistent as well, never fails,
    and changes the name of no thread; the calling thread has a slot afterwards. *)
Theorem get_name_keeps_registry P self w :
  registry_ok w →
  ∃ a w',
    w_get_thread_name P self w = Returns (Some a) w'
    ∧ registry_ok w'
    ∧ thread_name_key w' !! self = Some a
    ∧ heap w' !! a = thread_name self w
    ∧ (∀ t, thread_name t w' = thread_name t w)
    ∧ log_level w' = log_level w ∧ clock w' = clock w ∧ output w' = output w.
Proof.
  intros Hok. destruct (w_get_thread_name_spec P self w) as (a & Hrun & Hslot & Hheap).
  exists a, (named self w). split_and!; [done| |done|done| | | |].
  - by apply registry_ok_named.
  - intros t. by apply thread_name_named_other.
  - apply log_level_named.
  - apply clock_named.
  - apply output_named.
Qed.

Lemma get_name_keeps_registry_witness :
  ∃ a w',
    w_get_thread_name quiet_platform 77 (initial_world 1) = Returns (Some a) w'
    ∧ registry_ok w'
    ∧ heap w' !! a = Some (lit "77").
Proof.
  destruct (get_name_keeps_registry quiet_platform 77 (initial_world 1))
    as (a & w' & Hrun & Hok & _ & Hname & _).
  - apply registry_ok_initial.
  - by exists a, w'.
Defined.

(** X14. Logging keeps the registry consistent and changes the name of no
    thread, for every call that comes back by returning or through [abort]. *)
Theorem logging_keeps_registry P self fuel level fmt ap w w' :
  registry_ok w →
  w_log P self fuel level fmt ap w = Returns tt w'
  ∨ w_log P self fuel level fmt ap w = Aborts w' →
  registry_ok w' ∧ ∀ t, thread_name t w' = thread_name t w.
Proof.
  intros Hok Hrun. pose proof (w_log_logged P self fuel level fmt ap w w' Hrun) as Hlogged.
  destruct Hlogged as (k & es & _ & _ & [-> | ->]).
  - split; [|reflexivity].
    apply (registry_ok_same w); [reflexivity|reflexivity|exact Hok].
  - split.
    + apply (registry_ok_same (named self w)); [reflexivity|reflexivity|].
      by apply registry_ok_named.
    + intros t. rewrite thread_name_record, thread_name_advance.
      by apply thread_name_named_other.
Qed.

Lemma logging_keeps_registry_witness :
  ∃ w', w_log (sample_platform 1 (-1) (λ _, true) [lit "frame_a"]) 77 2 (-1)
          (lit "boom") [] (initial_world 1) = Aborts w'
        ∧ registry_ok w'
        ∧ thread_name 12 w' = Some (lit "12").
Proof.
  eexists. split; [vm_compute; reflexivity|].
  match goal with
  | |- registry_ok ?w' ∧ _ =>
    destruct (logging_keeps_registry (sample_platform 1 (-1) (λ _, true) [lit "frame_a"])
                77 2 (-1) (lit "boom") [] (initial_world 1) w') as [Hok Hnames]
  end.
  - apply registry_ok_initial.
  - right. vm_compute. reflexivity.
  - split; [exact Hok|]. exact (Hnames 12).
Defined.

(** X15. A slot that refers to a block no longer live makes the registry
    unusable: setting a name frees the block a second time, and a heard call of
    the entry point reads the name through the dangling pointer. Both are
    undefined. *)
Theorem dangling_name_is_undefined P self fuel level fmt ap w old :
  thread_name_key w !! self = Some old →
  heap w !! old = None →
  w_set_thread_name P self fmt ap w = Undefined
  ∧ (heard P level w = true → w_log P self (S fuel) level fmt ap w = Undefined).
Proof.
  intros Hslot Hdead. split.
  - unfold w_set_thread_name. rewrite bind_run. unfold pthread_getspecific at 1.
    rewrite bind_run, Hslot. unfold free. by rewrite Hdead.
  - intros Hheard.
    destruct (w_log_cases P self fuel level fmt ap w)
      as [[Hunheard _] | [[_ ->] | [_ (name & prefix & msg & Hname & _)]]].
    + congruence.
    + done.
    + unfold thread_name in Hname. rewrite Hslot in Hname. congruence.
Qed.

Lemma dangling_name_is_undefined_witness :
  w_set_thread_name quiet_platform 77 (lit "again") []
    (World 1 ∅ {[ 77 := 1%positive ]} 0 []) = Undefined.
Proof.
  apply (dangling_name_is_undefined quiet_platform 77 0 1 (lit "again") []
           (World 1 ∅ {[ 77 := 1%positive ]} 0 []) 1%positive).
  - reflexivity.
  - reflexivity.
Defined.

(** X16. The default name keeps only the low 32 bits of the identifier: two
    threads that never set a name are given the same name exactly when their
    identifiers agree modulo 2^32. *)
Theorem default_names_collide P self other w a b wa wb :
  thread_name_key w !! self = None →
  thread_name_key w !! other = None →
  w_get_thread_name P self w = Returns (Some a) wa →
  w_get_thread_name P other w = Returns (Some b) wb →
  heap wa !! a = heap wb !! b ↔ self `mod` 2 ^ 32 = other `mod` 2 ^ 32.
Proof.
  intros Hself Hother Hruna Hrunb.
  destruct (w_get_thread_name_spec P self w) as (a' & Ha & _ & Hheapa).
  destruct (w_get_thread_name_spec P other w) as (b' & Hb & _ & Hheapb).
  rewrite Hruna in Ha. injection Ha as <- ->.
  rewrite Hrunb in Hb. injection Hb as <- ->.
  rewrite Hheapa, Hheapb. unfold thread_name. rewrite Hself, Hother.
  split.
  - intros [= Heq]. by apply default_name_inj.
  - intros Heq. unfold default_name. by rewrite Heq.
Qed.

Lemma default_names_collide_witness :
  ∃ a b wa wb,
    w_get_thread_name quiet_platform 5 (initial_world 1) = Returns (Some a) wa
    ∧ w_get_thread_name quiet_platform 4294967301 (initial_world 1) = Returns (Some b) wb
    ∧ heap wa !! a = heap wb !! b.
Proof.
  eexists _, _, _, _. split; [vm_compute; reflexivity|].
  split; [vm_compute; reflexivity|].
  eapply (default_names_collide quiet_platform 5 4294967301 (initial_world 1)).
  - reflexivity.
  - reflexivity.
  - vm_compute. reflexivity.
  - vm_compute. reflexivity.
  - reflexivity.
Defined.

(** X17. When a thread exits, the destructor registered for the key releases its
    name: the slot is cleared, the block is gone from the heap, the registry
    stays consistent and every other thread keeps its name. A thread that never
    had a name exits without any change. *)
Theorem exit_releases_name self w :
  registry_ok w →
  ∃ w',
    thread_exit register_thread_name self w = Returns tt w'
    ∧ registry_ok w'
    ∧ thread_name_key w' = delete self (thread_name_key w)
    ∧ heap w' = released self w
    ∧ (∀ t, t ≠ self → thread_name t w' = thread_name t w)
    ∧ (thread_name_key w !! self = None → w' = w).
Proof.
  intros [Hlive Hapart Howned].
  unfold thread_exit. rewrite bind_run. unfold pthread_getspecific at 1.
  destruct (thread_name_key w !! self) as [a|] eqn:Hself.
  2:{ exists w. rewrite ret_run. unfold released. rewrite Hself.
      split_and!; [done|by split| |done..].
      by rewrite delete_id. }
  destruct (Hlive self a Hself) as [s Hs].
  rewrite bind_run. unfold pthread_setspecific at 1.
  unfold register_thread_name, pthread_key_create, free.
  cbn [destructor heap log_level thread_name_key clock output].
  rewrite Hs. eexists. split; [reflexivity|].
  unfold released. rewrite Hself. cbn [heap thread_name_key].
  split_and!; [|done|done| |done].
  - split; cbn [heap thread_name_key].
    + intros t b [Ht Hb]%lookup_delete_Some.
      rewrite lookup_delete_ne; [by eapply Hlive|].
      intros <-. by destruct Ht, (Hapart self t a).
    + intros t1 t2 b [_ H1]%lookup_delete_Some [_ H2]%lookup_delete_Some.
      by eapply Hapart.
    + intros b [Hb Hb']%lookup_delete_is_Some.
      destruct (Howned b Hb') as (t & Ht). exists t.
      rewrite lookup_delete_ne; [done|]. intros <-. congruence.
  - intros t Ht. unfold thread_name. cbn [heap thread_name_key].
    rewrite lookup_delete_ne by done.
    destruct (thread_name_key w !! t) as [b|] eqn:Hb; [|done].
    rewrite lookup_delete_ne; [done|].
    intros <-. by destruct Ht, (Hapart self t a).
Qed.

Lemma exit_releases_name_witness :
  ∃ a w1 w2,
    w_set_thread_name quiet_platform 77 (lit "worker") [] (initial_world 1)
    = Returns (Some a) w1
    ∧ thread_exit register_thread_name 77 w1 = Returns tt w2
    ∧ heap w2 = ∅.
Proof.
  eexists _, _.
  destruct (exit_releases_name 77
              (World 1 {[ 1%positive := lit "worker" ]} {[ 77 := 1%positive ]} 0 []))
    as (w2 & Hrun & _ & _ & Hheap & _).
  - split; cbn [heap thread_name_key].
    + intros t a [<- <-]%lookup_singleton_Some. by rewrite lookup_singleton_eq.
    + intros t1 t2 a [<- _]%lookup_singleton_Some [<- _]%lookup_singleton_Some. done.
    + intros a [s [<- _]%lookup_singleton_Some]. exists 77.
      by rewrite lookup_singleton_eq.
  - exists w2. split; [vm_compute; reflexivity|]. split; [exact Hrun|].
    rewrite Hheap. vm_compute. reflexivity.
Defined.

(** * Installing the handler *)

(** X18. The handler is installed, with [SA_SIGINFO], for exactly the signals
    its decoder has a case for: segmentation violation, bus error where the
    platform defines it, arithmetic fault and illegal instruction. Every other
    disposition is left as it was, and installing twice is the same as
    installing once. *)
Theorem handled_signals_are_decoded sg SA_SIGINFO table sig :
  w_setup_signal_handlers sg SA_SIGINFO table !! sig
  = (if bool_decide (sig ∈ (fault_table sg).*1)
     then Some (Sigaction Crash_handler [] SA_SIGINFO)
     else table !! sig)
  ∧ w_setup_signal_handlers sg SA_SIGINFO (w_setup_signal_handlers sg SA_SIGINFO table)
    = w_setup_signal_handlers sg SA_SIGINFO table.
Proof.
  assert (Hlookup : ∀ table sig,
            w_setup_signal_handlers sg SA_SIGINFO table !! sig
            = if bool_decide (sig ∈ (fault_table sg).*1)
              then Some (Sigaction Crash_handler [] SA_SIGINFO)
              else table !! sig).
  { clear. intros table sig.
    unfold w_setup_signal_handlers, sigaction, fault_table.
    cbn [sa_sigaction sa_mask sa_flags].
    destruct (SIGBUS sg) as [sigbus|]; cbn [app fmap list_fmap fst];
      case_bool_decide as Hin; rewrite ?elem_of_cons, elem_of_nil in Hin.
    - destruct (decide (sig = SIGILL sg)) as [->|?]; [by rewrite lookup_insert_eq|].
      rewrite lookup_insert_ne by done.
      destruct (decide (sig = SIGFPE sg)) as [->|?]; [by rewrite lookup_insert_eq|].
      rewrite lookup_insert_ne by done.
      destruct (decide (sig = sigbus)) as [->|?]; [by rewrite lookup_insert_eq|].
      rewrite lookup_insert_ne by done.
      destruct (decide (sig = SIGSEGV sg)) as [->|?]; [by rewrite lookup_insert_eq|].
      destruct Hin as [?|[?|[?|[?|[]]]]]; done.
    - rewrite !lookup_insert_ne by (intros Heq; apply Hin; rewrite Heq; auto 7). done.
    - destruct (decide (sig = SIGILL sg)) as [->|?]; [by rewrite lookup_insert_eq|].
      rewrite lookup_insert_ne by done.
      destruct (decide (sig = SIGFPE sg)) as [->|?]; [by rewrite lookup_insert_eq|].
      rewrite lookup_insert_ne by done.
      destruct (decide (sig = SIGSEGV sg)) as [->|?]; [by rewrite lookup_insert_eq|].
      destruct Hin as [?|[?|[?|[]]]]; done.
    - rewrite !lookup_insert_ne by (intros Heq; apply Hin; rewrite Heq; auto 7). done. }
  split; [apply Hlookup|].
  apply map_eq. intros i. rewrite !Hlookup. by case_bool_decide.
Qed.

(** * The handler and the entry point together *)

(** X19. The handler does not return to the faulting code when some sink listens
    at the fatal severity: it comes back from the entry point only when the call
    was unheard, and then nothing at all was reported. *)
Theorem handler_returns_only_unheard P sg self fuel signo si w w' :
  crash_handler P sg self fuel signo si w = Returns tt w' →
  heard P (W_LOG_FATAL P) w = false ∧ w' = w.
Proof.
  unfold crash_handler. destruct fuel as [|fuel]; [done|].
  destruct (w_log_cases P self fuel (W_LOG_FATAL P) crash_message
              [AInt signo; AStr (strsignal P signo); AStr (decode sg si);
               APtr (match si with Some si => si_value si | None => 0 end)] w)
    as [[Hheard ->] | [[_ ->] | [_ (name & prefix & msg & _ & _ & _ & _ & ->)]]].
  - by intros [= <-].
  - done.
  - rewrite bool_decide_eq_true_2 by reflexivity.
    intros Hrun. by apply never_returns in Hrun.
Qed.

Lemma handler_returns_only_unheard_witness :
  heard (sample_platform 1 3 (λ _, false) []) 3 (initial_world 1) = false.
Proof.
  apply (handler_returns_only_unheard (sample_platform 1 3 (λ _, false) []) linux_signals
           77 2 11 (Some {| si_signo := 11; si_code := 1; si_value := 4096 |})
           (initial_world 1) (initial_world 1)).
  vm_compute. reflexivity.
Defined.

(** X20. A fault that is heard is reported in one line before anything else: the
    prefix of the calling thread, then the signal number, the platform's
    description of the signal, the decoded reason and the fault value in
    parentheses. The line goes to each sink whose gate passes for the fatal
    severity, the client sink being told the error severity; the trace and
    [abort] follow, so the handler does not return. *)
Theorem fault_report_line P sg self fuel signo si w name prefix :
  heard P (W_LOG_FATAL P) w = true →
  thread_name self w = Some name →
  log_prefix P (gettimeofday P (clock w)) name = Some prefix →
  (length prefix ≤ 4096)%nat →
  crash_handler P sg self (S fuel) signo si w
  = (log_stack_trace P self fuel;; abort)
      (record (delivered P (W_LOG_FATAL P) (W_LOG_ERR P) w
                 (line_of prefix
                    (lit "Terminating due to signal " ++ fmt_decimal false 0 signo ++ lit " "
                     ++ c_str (strsignal P signo) ++ lit ". " ++ decode sg si
                     ++ lit " (" ++ c_str (fmt_pointer P (fault_value si)) ++ lit ")"
                     ++ [NL])))
         (named self (tick w)))
  ∧ ∀ w', crash_handler P sg self (S fuel) signo si w ≠ Returns tt w'.
Proof.
  intros Hheard Hname Hprefix Hfits. rewrite heard_eq in Hheard.
  assert (Hrun := w_log_listened P self fuel (W_LOG_FATAL P) crash_message
                    [AInt signo; AStr (strsignal P signo); AStr (decode sg si);
                     APtr (fault_value si)] w name prefix _
                    Hheard Hname Hprefix Hfits (vformat_crash_message P sg signo si)).
  rewrite bool_decide_eq_true_2 in Hrun by reflexivity.
  split; [exact Hrun|].
  intros w' Hret. change (crash_handler P sg self (S fuel) signo si w)
    with (w_log P self (S fuel) (W_LOG_FATAL P) crash_message
            [AInt signo; AStr (strsignal P signo); AStr (decode sg si);
             APtr (fault_value si)] w) in Hret.
  rewrite Hrun in Hret. by apply never_returns in Hret.
Qed.

Lemma fault_report_line_witness :
  crash_handler (sample_platform 1 (-1) (λ _, false) []) linux_signals 77 2 11
    (Some {| si_signo := 11; si_code := 1; si_value := 4096 |}) (initial_world 1)
  = Aborts (World 1 {[ 1%positive := lit "77" ]} {[ 77 := 1%positive ]} 2
              [ Stderr (lit "2016-03-04T05:06:07,000: [77] Terminating due to signal 11 Segmentation fault. address not mapped to object (0x1000)" ++ [NL]);
                Stderr (lit "2016-03-04T05:06:07,001: [77] Fatal error detected at:" ++ [NL]) ]).
Proof.
  destruct (fault_report_line (sample_platform 1 (-1) (λ _, false) []) linux_signals 77 1 11
              (Some {| si_signo := 11; si_code := 1; si_value := 4096 |}) (initial_world 1)
              (default_name 77) (lit "2016-03-04T05:06:07,000: [77] ")) as [Hrun _].
  - reflexivity.
  - reflexivity.
  - vm_compute. reflexivity.
  - apply Nat.leb_le. vm_compute. reflexivity.
  - refine (eq_trans Hrun _). vm_compute. reflexivity.
Defined.

(** ** The table of reasons *)

Lemma reason_nonempty sg sig codes code reason :
  (sig, codes) ∈ fault_table sg → (code, reason) ∈ codes → reason ≠ [].
Proof.
  unfold fault_table. rewrite elem_of_app, !elem_of_cons, elem_of_nil.
  intros [[Hsig|[Hsig|[Hsig|[]]]]|Hbus].
  - injection Hsig as -> ->. unfold ill_reasons. rewrite !elem_of_cons, elem_of_nil.
    intros [H|[H|[H|[H|[H|[H|[H|[H|[]]]]]]]]]; by injection H as -> ->.
  - injection Hsig as -> ->. unfold fpe_reasons. rewrite !elem_of_cons, elem_of_nil.
    intros [H|[H|[H|[H|[H|[H|[H|[H|[]]]]]]]]]; by injection H as -> ->.
  - injection Hsig as -> ->. unfold segv_reasons. rewrite !elem_of_cons, elem_of_nil.
    intros [H|[H|[]]]; by injection H as -> ->.
  - destruct (SIGBUS sg) as [sigbus|]; [|by apply elem_of_nil in Hbus].
    apply list_elem_of_singleton in Hbus. injection Hbus as -> ->.
    unfold bus_reasons. rewrite !elem_of_cons, elem_of_nil.
    intros [H|[H|[]]]; by injection H as -> ->.
Qed.

(** X21. The reason is empty exactly for the faults the table does not list: no
    listed pair of signal and sub-code has an empty reason, so an empty reason
    in the report means that the signal or its sub-code was not recognised. The
    case labels of each [switch] are distinct, as C requires. *)
Theorem empty_reason_means_unlisted sg si :
  NoDup (fault_table sg).*1 →
  (∀ sig codes, (sig, codes) ∈ fault_table sg → NoDup codes.*1) →
  decode sg (Some si) = lit "" ↔ unrecognised sg si.
Proof.
  intros Hsigs Hcodes. split; [|apply decode_miss].
  intros Hempty codes Hin Hcode.
  apply list_elem_of_fmap in Hcode as ([code reason] & Heq & Hreason).
  cbn [fst] in Heq. subst code.
  destruct si as [sig code v]. cbn [si_signo si_code] in *.
  rewrite (decode_hit sg sig codes code reason v Hsigs Hin (Hcodes _ _ Hin) Hreason)
    in Hempty.
  by eapply reason_nonempty.
Qed.

Lemma empty_reason_means_unlisted_witness :
  unrecognised linux_signals {| si_signo := 11; si_code := 99; si_value := 0 |}.
Proof.
  apply (empty_reason_means_unlisted linux_signals
           {| si_signo := 11; si_code := 99; si_value := 0 |}).
  - apply (bool_decide_unpack _). vm_compute. exact I.
  - intros sig codes Hin. apply (bool_decide_unpack _).
    unfold fault_table in Hin. cbn in Hin.
    rewrite !elem_of_cons, elem_of_nil in Hin.
    destruct Hin as [Hin|[Hin|[Hin|[Hin|[]]]]]; injection Hin as -> ->;
      vm_compute; exact I.
  - vm_compute. reflexivity.
Defined.
